(** * Titanic survival analysis (apputil.py): a shallow embedding

    The four analytic transforms of [apputil.py] are embedded as functions of
    the table that [pd.read_csv] returns.  A table is the list of its rows in
    file order; the pandas operations the transforms call ([unique], [sorted],
    [pd.cut], [groupby(...).agg], [round], [reindex], [sort_values],
    [value_counts], [median], column assignment and [drop]) are embedded next
    to the transforms that use them.

    Numbers.  An integer column is [int64]: its values are [Z]s in the
    64-bit range, and the one sum the code takes of two such columns wraps
    around ([add64]).  A float is the rational it denotes, a [Q], so that
    comparisons are exact, and NaN is [None].  The survival rates and the
    fare statistics are computed as the code computes them, in double
    precision: [fl] rounds a rational to the nearest double, and the means
    and [round] round after each operation.  The median of a group of ages
    is one of them or the midpoint of the two middle ones.

    Part I holds the embedding and the vocabulary of the statements, Part II
    the proofs. *)

From Stdlib Require Import String Ascii.
From Stdlib Require Import ZArith QArith Qround Qabs Qpower List Bool Lia Lqa.
From Stdlib Require Import Permutation Sorted.
Import ListNotations.

Local Open Scope Z_scope.

(** * Part I: the embedding *)

(** ** The input table *)

(** One row of the CSV resource, typed by its schema. *)
Record PassengerRecord := mkPassenger {
  PassengerId : Z;
  Survived : bool;          (* 0 / 1 in the file *)
  Pclass : Z;
  Name : string;
  Sex : string;
  Age : option Q;           (* an empty field is NaN *)
  SibSp : Z;
  Parch : Z;
  Ticket : string;
  Fare : Q;
  Cabin : option string;
  Embarked : option string
}.

(** ** Python and pandas helpers *)

Section Sorting.
Context {A : Type} (leb : A -> A -> bool).

Fixpoint insert (x : A) (l : list A) : list A :=
  match l with
  | [] => [x]
  | y :: l' => if leb x y then x :: l else y :: insert x l'
  end.

(** [sorted(l)] and [sort_values]: a stable sort. *)
Fixpoint sorted (l : list A) : list A :=
  match l with
  | [] => []
  | x :: l' => insert x (sorted l')
  end.
End Sorting.

Section Unique.
Context {A : Type} (eqb : A -> A -> bool).

(** [Series.unique()]: the distinct values, in order of first appearance. *)
Fixpoint unique (l : list A) : list A :=
  match l with
  | [] => []
  | x :: l' => x :: filter (fun y => negb (eqb x y)) (unique l')
  end.
End Unique.

(** Sum of an integer column. *)
Definition sum (xs : list Z) : Z := fold_right Z.add 0 xs.

(** *** Counting the rows of each group *)

Section GroupCount.
Context {R K : Type} (key : R -> option K) (eqb : K -> K -> bool).

(** The rows of [df] whose group key is [k]; a row with an undefined key
    (NaN in a grouping column) is in no group. *)
Definition in_group (k : K) (r : R) : bool :=
  match key r with
  | Some k' => eqb k' k
  | None => false
  end.

Definition get_group (k : K) (df : list R) : list R := filter (in_group k) df.

Definition has_key (r : R) : bool :=
  match key r with Some _ => true | None => false end.

Definition size (k : K) (df : list R) : Z := Z.of_nat (length (get_group k df)).
End GroupCount.

(** *** 64-bit integers *)

(** The range of an [int64], and the [int64] that an integer wraps to. *)
Definition is_int64 (z : Z) : Prop := - 2 ^ 63 <= z < 2 ^ 63.

Definition int64 (z : Z) : Z := (z + 2 ^ 63) mod 2 ^ 64 - 2 ^ 63.

(** [+] on two [int64] columns, or on a column and a small constant. *)
Definition add64 (x y : Z) : Z := int64 (x + y).

(** *** Double precision *)

(** Nearest integer, a half going to the even neighbour: [np.rint]. *)
Definition rint (q : Q) : Z :=
  let f := Qfloor q in
  match (q - inject_Z f ?= 1 # 2)%Q with
  | Lt => f
  | Gt => f + 1
  | Eq => if Z.even f then f else f + 1
  end.

Definition pow2 (e : Z) : Q := ((2 # 1) ^ e)%Q.

(** The binary exponent of a positive number: [2^l <= q < 2^(l+1)]. *)
Definition ilog2 (q : Q) : Z :=
  let l := Z.log2 (Qnum q) - Z.log2 (Zpos (Qden q)) in
  if Qle_bool (pow2 l) q then l else l - 1.

(** The double nearest to a positive number, ties to the even significand:
    a significand of 53 bits, or of fewer bits at the least exponent -1074.
    The overflow to infinity, at [2^1024], is not part of the embedding. *)
Definition fl_pos (q : Q) : Q :=
  let e := Z.max (-1074) (ilog2 q - 52) in
  (inject_Z (rint (q / pow2 e)) * pow2 e)%Q.

Definition fl (q : Q) : Q :=
  match (q ?= 0)%Q with
  | Eq => 0%Q
  | Gt => fl_pos q
  | Lt => (- fl_pos (- q))%Q
  end.

(** [+], [-], [*] and [/] on doubles: the exact result, rounded. *)
Definition fadd (x y : Q) : Q := fl (x + y).

Definition fsub (x y : Q) : Q := fl (x - y).

Definition fmul (x y : Q) : Q := fl (x * y).

Definition fdiv (x y : Q) : Q := fl (x / y).

(** [round(decimals)] of a float column, as numpy computes it: multiply by
    [10^decimals], [rint], divide by [10^decimals]. *)
Definition round (decimals : nat) (q : Q) : Q :=
  let p := fl (inject_Z (10 ^ Z.of_nat decimals)) in
  fdiv (inject_Z (rint (fmul q p))) p.

(** *** Binning: [pd.cut(x, bins, labels, right=True)] *)

(** A bin edge: a number or [float('inf')]. *)
Inductive edge := Finite (q : Q) | Inf.

(** [e < x] and [x <= e] for a finite [x]. *)
Definition above (x : Q) (e : edge) : bool :=
  match e with
  | Finite q => negb (Qle_bool x q)
  | Inf => false
  end.

Definition upto (x : Q) (e : edge) : bool :=
  match e with
  | Finite q => Qle_bool x q
  | Inf => true
  end.

(** The label of the interval [(lo, hi]] of consecutive edges that holds
    [x]; NaN ([None]) when no interval does. *)
Fixpoint cut {L : Type} (bins : list edge) (labels : list L) (x : Q)
  : option L :=
  match bins, labels with
  | lo :: ((hi :: _) as rest), lab :: labs =>
      if above x lo && upto x hi then Some lab else cut rest labs x
  | _, _ => None
  end.

(** ** Exercise 1: survival_demographics *)

Inductive age_label := Child | Teen | Adult | Senior.

Definition age_bins : list edge := [Finite 0; Finite 12; Finite 19; Finite 59; Inf].
Definition age_labels : list age_label := [Child; Teen; Adult; Senior].

(** Position of a category in [age_labels]: the order of the categorical. *)
Definition code (g : age_label) : Z :=
  match g with Child => 0 | Teen => 1 | Adult => 2 | Senior => 3 end.

Definition age_label_eqb (g h : age_label) : bool := code g =? code h.

(** [df['age_group']]: NaN stays NaN. *)
Definition age_group (r : PassengerRecord) : option age_label :=
  match Age r with
  | Some a => cut age_bins age_labels a
  | None => None
  end.

(** [itertools.product]: the rightmost factor varies fastest. *)
Definition product {A B C : Type} (xs : list A) (ys : list B) (zs : list C)
  : list (A * B * C) :=
  flat_map (fun x => flat_map (fun y => map (fun z => (x, y, z)) zs) ys) xs.

Definition all_classes (df : list PassengerRecord) : list Z :=
  sorted Z.leb (unique Z.eqb (map Pclass df)).

Definition all_sexes (df : list PassengerRecord) : list string :=
  sorted String.leb (unique String.eqb (map Sex df)).

Definition all_age_groups : list age_label := age_labels.

Definition all_combinations (df : list PassengerRecord)
  : list (Z * string * age_label) :=
  product (all_classes df) (all_sexes df) all_age_groups.

Definition complete_index := all_combinations.

Definition combination_eqb (k k' : Z * string * age_label) : bool :=
  let '(c, s, g) := k in
  let '(c', s', g') := k' in
  (c =? c') && (s =? s')%string && age_label_eqb g g'.

(** The group key of a row under [groupby(['Pclass', 'Sex', 'age_group'])]. *)
Definition demographic_key (r : PassengerRecord)
  : option (Z * string * age_label) :=
  match age_group r with
  | Some g => Some (Pclass r, Sex r, g)
  | None => None
  end.

(** A row of the statistics table: the three index levels and the three
    aggregated columns, under the names they get at "Flatten column names". *)
Module Demographics.
Record row := mk {
  Pclass : Z;
  Sex : string;
  age_group : age_label;
  n_passengers : Z;              (* ('PassengerId', 'count') *)
  n_survivors : Z;               (* ('Survived', 'sum') *)
  survival_rate : option Q       (* ('Survived', 'mean') *)
}.

Definition index (w : row) : Z * string * age_label :=
  (Pclass w, Sex w, age_group w).
End Demographics.

Definition count (g : list PassengerRecord) : Z := Z.of_nat (length g).

(** Mean of a column of 0s and 1s over a group, a double: the sum, which
    is exact for such a column, divided by the count; NaN for an empty
    group. *)
Definition mean (xs : list Z) : option Q :=
  match xs with
  | [] => None
  | _ => Some (fdiv (inject_Z (sum xs)) (inject_Z (Z.of_nat (length xs))))
  end.

(** [grouped.agg({...})] for the group with key [k]. *)
Definition agg (df : list PassengerRecord) (k : Z * string * age_label)
  : Demographics.row :=
  let '(c, s, g) := k in
  let members := get_group demographic_key combination_eqb k df in
  let survived := map (fun r => Z.b2z (Survived r)) members in
  Demographics.mk c s g (count members) (sum survived) (mean survived).

(** [groupby(..., observed=False)]: one group per combination of the values
    of the two plain keys and of every category, empty groups included. *)
Definition grouped_index (df : list PassengerRecord)
  : list (Z * string * age_label) :=
  product (sorted Z.leb (unique Z.eqb (map Pclass df)))
          (sorted String.leb (unique String.eqb (map Sex df)))
          age_labels.

(** [DataFrame.round(3)]: integer columns are unchanged. *)
Definition round_row (decimals : nat) (w : Demographics.row)
  : Demographics.row :=
  Demographics.mk (Demographics.Pclass w) (Demographics.Sex w)
    (Demographics.age_group w) (Demographics.n_passengers w)
    (Demographics.n_survivors w)
    (option_map (round decimals) (Demographics.survival_rate w)).

(** [reindex(index, fill_value=0)]: the row of each index entry, or a row of
    zeros where the table has none. *)
Definition reindex (index : list (Z * string * age_label))
  (table : list Demographics.row) : list Demographics.row :=
  map (fun k =>
         match find (fun w => combination_eqb (Demographics.index w) k) table
         with
         | Some w => w
         | None => let '(c, s, g) := k in Demographics.mk c s g 0 0 (Some 0%Q)
         end) index.

(** [.loc[n_passengers == 0, 'survival_rate'] = 0.0] *)
Definition fix_rate (w : Demographics.row) : Demographics.row :=
  if Demographics.n_passengers w =? 0
  then Demographics.mk (Demographics.Pclass w) (Demographics.Sex w)
         (Demographics.age_group w) (Demographics.n_passengers w)
         (Demographics.n_survivors w) (Some 0%Q)
  else w.

(** Row order of [sort_values(['Pclass', 'Sex', 'age_group'])].  The third
    key is compared as the [age_group] column is held after [reindex] and
    [reset_index]: [label_leb] is [category_leb] for a categorical column
    and [name_leb] for a column of plain strings. *)
Definition demographics_leb (label_leb : age_label -> age_label -> bool)
  (v w : Demographics.row) : bool :=
  if Demographics.Pclass v <? Demographics.Pclass w then true
  else if Demographics.Pclass v =? Demographics.Pclass w then
    if String.ltb (Demographics.Sex v) (Demographics.Sex w) then true
    else if (Demographics.Sex v =? Demographics.Sex w)%string then
      label_leb (Demographics.age_group v) (Demographics.age_group w)
    else false
  else false.

(** Category order, and the order of the labels as strings. *)
Definition category_leb (g h : age_label) : bool := code g <=? code h.

Definition label_name (g : age_label) : string :=
  match g with
  | Child => "Child" | Teen => "Teen" | Adult => "Adult" | Senior => "Senior"
  end.

Definition name_leb (g h : age_label) : bool :=
  String.leb (label_name g) (label_name h).

Definition survival_demographics (label_leb : age_label -> age_label -> bool)
  (df : list PassengerRecord) : list Demographics.row :=
  let survival_stats := map (round_row 3) (map (agg df) (grouped_index df)) in
  let survival_stats := reindex (complete_index df) survival_stats in
  let survival_stats := map fix_rate survival_stats in
  sorted (demographics_leb label_leb) survival_stats.

(** The statistics of one combination, as they leave the function. *)
Definition stats (df : list PassengerRecord) (k : Z * string * age_label)
  : Demographics.row :=
  fix_rate (round_row 3 (agg df k)).

(** The rows with a defined age above 0, and the rows with a defined age. *)
Definition age_positive (r : PassengerRecord) : bool :=
  match Age r with
  | Some a => negb (Qle_bool a 0)
  | None => false
  end.

Definition age_defined (r : PassengerRecord) : bool :=
  match Age r with
  | Some _ => true
  | None => false
  end.

(** ** Exercise 2: family_groups *)

(** [df['family_size'] = df['SibSp'] + df['Parch'] + 1] *)
Definition family_size (r : PassengerRecord) : Z :=
  add64 (add64 (SibSp r) (Parch r)) 1.

Module Family.
Record row := mk {
  family_size : Z;
  Pclass : Z;
  n_passengers : Z;          (* ('PassengerId', 'count') *)
  avg_fare : option Q;       (* ('Fare', 'mean') *)
  min_fare : option Q;       (* ('Fare', 'min') *)
  max_fare : option Q        (* ('Fare', 'max') *)
}.

Definition index (w : row) : Z * Z := (family_size w, Pclass w).
End Family.

(** The group key of a row under [groupby(['family_size', 'Pclass'])]. *)
Definition family_key (r : PassengerRecord) : option (Z * Z) :=
  Some (family_size r, Pclass r).

Definition pair_eqb (k k' : Z * Z) : bool :=
  (fst k =? fst k') && (snd k =? snd k').

(** Tuples compare by their first component, then by their second. *)
Definition pair_leb (k k' : Z * Z) : bool :=
  (fst k <? fst k') || ((fst k =? fst k') && (snd k <=? snd k')).

(** Aggregates of a float column over a group: NaN for an empty group.
    The mean is the sum divided by the count; the sum is accumulated in
    double precision with a running compensation, as pandas' [group_mean]
    does. *)
Definition compensated_add (acc : Q * Q) (val : Q) : Q * Q :=
  let '(sumx, compensation) := acc in
  let y := fsub val compensation in
  let t := fadd sumx y in
  (t, fsub (fsub t sumx) y).

Definition fsum (xs : list Q) : Q :=
  fst (fold_left compensated_add xs (0%Q, 0%Q)).

Definition fmean (xs : list Q) : option Q :=
  match xs with
  | [] => None
  | _ => Some (fdiv (fsum xs) (inject_Z (Z.of_nat (length xs))))
  end.

Definition fmin (xs : list Q) : option Q :=
  match xs with
  | [] => None
  | x :: xs' => Some (fold_left (fun m y => if Qle_bool y m then y else m) xs' x)
  end.

Definition fmax (xs : list Q) : option Q :=
  match xs with
  | [] => None
  | x :: xs' => Some (fold_left (fun m y => if Qle_bool m y then y else m) xs' x)
  end.

(** The groups of [groupby]: the key tuples that occur, in sorted order. *)
Definition family_index (df : list PassengerRecord) : list (Z * Z) :=
  sorted pair_leb (unique pair_eqb (map (fun r => (family_size r, Pclass r)) df)).

(** [grouped.agg({...})] for the group with key [k]. *)
Definition family_agg (df : list PassengerRecord) (k : Z * Z) : Family.row :=
  let members := get_group family_key pair_eqb k df in
  let fares := map Fare members in
  Family.mk (fst k) (snd k) (count members)
            (fmean fares) (fmin fares) (fmax fares).

(** [DataFrame.round(2)] *)
Definition family_round (decimals : nat) (w : Family.row) : Family.row :=
  Family.mk (Family.family_size w) (Family.Pclass w) (Family.n_passengers w)
    (option_map (round decimals) (Family.avg_fare w))
    (option_map (round decimals) (Family.min_fare w))
    (option_map (round decimals) (Family.max_fare w)).

(** Row order of [sort_values(['Pclass', 'family_size'])]. *)
Definition family_leb (v w : Family.row) : bool :=
  (Family.Pclass v <? Family.Pclass w)
  || ((Family.Pclass v =? Family.Pclass w)
      && (Family.family_size v <=? Family.family_size w)).

Definition family_groups (df : list PassengerRecord) : list Family.row :=
  let family_stats := map (family_round 2) (map (family_agg df) (family_index df)) in
  sorted family_leb family_stats.

(** The order the spec names: by class, then by family size. *)
Definition class_then_size (v w : Family.row) : Prop :=
  Family.Pclass v < Family.Pclass w \/
  (Family.Pclass v = Family.Pclass w /\
   Family.family_size v <= Family.family_size w).

(** ** Exercise 2: last_names *)

(** Text.  A string is the sequence of its characters, each character one
    code point below 256. *)

(** [str.split(sep)]: the pieces between the occurrences of [sep]. *)
Fixpoint str_split (sep : ascii) (s : string) : list string :=
  match s with
  | EmptyString => [EmptyString]
  | String c s' =>
      if Ascii.eqb c sep then EmptyString :: str_split sep s'
      else match str_split sep s' with
           | piece :: pieces => String c piece :: pieces
           | [] => [String c EmptyString]
           end
  end.

(** [.str[i]]: the element at position [i], NaN where there is none. *)
Definition str_get {A : Type} (i : nat) (l : list A) : option A := nth_error l i.

(** [str.isspace] on one character. *)
Definition isspace (c : ascii) : bool :=
  let n := nat_of_ascii c in
  ((9 <=? n) && (n <=? 13) || (28 <=? n) && (n <=? 32)
   || (n =? 133) || (n =? 160))%nat.

Fixpoint lstrip (s : string) : string :=
  match s with
  | EmptyString => EmptyString
  | String c s' => if isspace c then lstrip s' else s
  end.

Fixpoint rstrip (s : string) : string :=
  match s with
  | EmptyString => EmptyString
  | String c s' =>
      match rstrip s' with
      | EmptyString => if isspace c then EmptyString else String c EmptyString
      | t => String c t
      end
  end.

(** [str.strip()] *)
Definition strip (s : string) : string := rstrip (lstrip s).

(** [Series.dropna()] *)
Definition dropna {A : Type} (s : list (option A)) : list A :=
  flat_map (fun x => match x with Some v => [v] | None => [] end) s.

(** Row order of [sort_values(ascending=False)] on the counts. *)
Definition count_geb (a b : string * Z) : bool := snd b <=? snd a.

(** [Series.value_counts()]: the number of rows of each distinct value, NaN
    left out, by descending count; among equal counts, in order of first
    appearance. *)
Definition value_counts (s : list (option string)) : list (string * Z) :=
  let index := unique String.eqb (dropna s) in
  sorted count_geb
    (map (fun v => (v, size (fun x : option string => x) String.eqb v s)) index).

Definition last_names_series (df : list PassengerRecord)
  : list (option string) :=
  map (fun r => option_map strip (str_get 0 (str_split "," (Name r)))) df.

Definition last_names (df : list PassengerRecord) : list (string * Z) :=
  let name_counts := value_counts (last_names_series df) in
  name_counts.

(** *** The surname in the words of the spec *)

(** The part of a name before its first comma: the whole name when it has
    no comma. *)
Fixpoint before_comma (s : string) : string :=
  match s with
  | EmptyString => EmptyString
  | String c s' => if Ascii.eqb c "," then EmptyString
                   else String c (before_comma s')
  end.

Definition surname (name : string) : string := strip (before_comma name).

Fixpoint has_comma (s : string) : bool :=
  match s with
  | EmptyString => false
  | String c s' => Ascii.eqb c "," || has_comma s'
  end.

Fixpoint all_space (s : string) : bool :=
  match s with
  | EmptyString => true
  | String c s' => isspace c && all_space s'
  end.

Definition first_char (s : string) : option ascii :=
  match s with
  | EmptyString => None
  | String c _ => Some c
  end.

Fixpoint last_char (s : string) : option ascii :=
  match s with
  | EmptyString => None
  | String c EmptyString => Some c
  | String _ s' => last_char s'
  end.

Definition space_at (c : option ascii) : bool :=
  match c with
  | Some c => isspace c
  | None => false
  end.

(** The order the spec names: by descending count. *)
Definition count_descending (a b : string * Z) : Prop := snd b <= snd a.

(** ** Bonus: determine_age_division *)

(** This transform returns the input table itself with a column added, so
    the table is held here by columns: a cell is a value of one of the
    column types or NaN, and a frame lists its columns in order. *)
Inductive cell :=
| Int (z : Z)
| Float (q : Q)
| Str (s : string)
| Bool (b : bool)
| NaN.

Definition Series := list cell.
Definition DataFrame := list (string * Series).

Definition float_cell (x : option Q) : cell :=
  match x with Some q => Float q | None => NaN end.

Definition str_cell (x : option string) : cell :=
  match x with Some s => Str s | None => NaN end.

(** The frame that [pd.read_csv] returns for the rows [rows]. *)
Definition read_csv (rows : list PassengerRecord) : DataFrame :=
  [ ("PassengerId"%string, map (fun r => Int (PassengerId r)) rows);
    ("Survived"%string, map (fun r => Int (Z.b2z (Survived r))) rows);
    ("Pclass"%string, map (fun r => Int (Pclass r)) rows);
    ("Name"%string, map (fun r => Str (Name r)) rows);
    ("Sex"%string, map (fun r => Str (Sex r)) rows);
    ("Age"%string, map (fun r => float_cell (Age r)) rows);
    ("SibSp"%string, map (fun r => Int (SibSp r)) rows);
    ("Parch"%string, map (fun r => Int (Parch r)) rows);
    ("Ticket"%string, map (fun r => Str (Ticket r)) rows);
    ("Fare"%string, map (fun r => Float (Fare r)) rows);
    ("Cabin"%string, map (fun r => str_cell (Cabin r)) rows);
    ("Embarked"%string, map (fun r => str_cell (Embarked r)) rows) ].

(** [df.columns] *)
Definition columns (df : DataFrame) : list string := map fst df.

(** [df[c]]: [None] is KeyError. *)
Definition getitem (df : DataFrame) (c : string) : option Series :=
  option_map snd (find (fun col => String.eqb (fst col) c) df).

(** [df[c] = v]: replaces the column [c], or adds it as the last column. *)
Fixpoint setitem (df : DataFrame) (c : string) (v : Series) : DataFrame :=
  match df with
  | [] => [(c, v)]
  | col :: df' =>
      if String.eqb (fst col) c then (c, v) :: df' else col :: setitem df' c v
  end.

(** [df.drop(c, axis=1)]: [None] is KeyError. *)
Definition drop (df : DataFrame) (c : string) : option DataFrame :=
  if existsb (String.eqb c) (columns df)
  then Some (filter (fun col => negb (String.eqb (fst col) c)) df)
  else None.

(** The number in a cell of a numeric column; NaN has none. *)
Definition numeric (x : cell) : option Q :=
  match x with
  | Int z => Some (inject_Z z)
  | Float q => Some q
  | _ => None
  end.

(** The key in a cell of an integer column. *)
Definition int_key (x : cell) : option Z :=
  match x with
  | Int z => Some z
  | _ => None
  end.

(** [median()] of the numbers of a group: the middle one in sorted order,
    or the mean of the two middle ones; NaN when there is none. *)
Definition median (xs : list Q) : option Q :=
  let s := sorted Qle_bool xs in
  let n := length s in
  match n with
  | O => None
  | _ =>
      if Nat.even n
      then Some ((nth (n / 2 - 1) s 0 + nth (n / 2) s 0) / 2)%Q
      else Some (nth (n / 2) s 0%Q)
  end.

(** [groupby(keys)[values].median()]: a series indexed by the sorted key
    values, NaN keys dropped and NaN values skipped. *)
Definition groupby_median (keys values : Series) : list (Z * option Q) :=
  let rows := combine keys values in
  let index := sorted Z.leb (unique Z.eqb (dropna (map int_key keys))) in
  map (fun k =>
         (k, median (dropna (map (fun row => numeric (snd row))
                      (get_group (fun row : cell * cell => int_key (fst row))
                                 Z.eqb k rows)))))
      index.

(** [s.map(m)] for a series [m]: the value at each key, NaN where the key
    is missing. *)
Definition map_series (s : Series) (m : list (Z * option Q)) : Series :=
  map (fun x =>
         match int_key x with
         | Some k =>
             match find (fun entry => fst entry =? k) m with
             | Some entry => float_cell (snd entry)
             | None => NaN
             end
         | None => NaN
         end) s.

(** [x > y] on cells: false when either side is NaN. *)
Definition gt (x y : cell) : cell :=
  match numeric x, numeric y with
  | Some a, Some b => Bool (negb (Qle_bool a b))
  | _, _ => Bool false
  end.

Fixpoint map2 {A B C : Type} (f : A -> B -> C) (xs : list A) (ys : list B)
  : list C :=
  match xs, ys with
  | x :: xs', y :: ys' => f x y :: map2 f xs' ys'
  | _, _ => []
  end.

(** [s.fillna(v)] *)
Definition fillna (s : Series) (v : cell) : Series :=
  map (fun x => match x with NaN => v | _ => x end) s.

Definition bind {A B : Type} (x : option A) (f : A -> option B) : option B :=
  match x with
  | Some a => f a
  | None => None
  end.

Notation "x <- e ;; k" := (bind e (fun x => k))
  (at level 61, e at next level, right associativity).

Definition determine_age_division (rows : list PassengerRecord)
  : option DataFrame :=
  let df := read_csv rows in
  pclass <- getitem df "Pclass" ;;
  age <- getitem df "Age" ;;
  let median_ages := groupby_median pclass age in
  pclass <- getitem df "Pclass" ;;
  let df := setitem df "class_median_age" (map_series pclass median_ages) in
  age <- getitem df "Age" ;;
  class_median_age <- getitem df "class_median_age" ;;
  let df := setitem df "older_passenger" (map2 gt age class_median_age) in
  older_passenger <- getitem df "older_passenger" ;;
  let df := setitem df "older_passenger" (fillna older_passenger (Bool false)) in
  drop df "class_median_age".

(** The defined ages of the records of class [c], and their median. *)
Definition class_ages (rows : list PassengerRecord) (c : Z) : list Q :=
  dropna (map Age (filter (fun r => Pclass r =? c) rows)).

Definition class_median (rows : list PassengerRecord) (c : Z) : option Q :=
  median (class_ages rows c).




(** Whether a record is older than the median of its class. *)
Definition older (rows : list PassengerRecord) (r : PassengerRecord) : bool :=
  match Age r, class_median rows (Pclass r) with
  | Some a, Some m => negb (Qle_bool a m)
  | _, _ => false
  end.


(** ** Sample rows *)

Definition braund : PassengerRecord :=
  mkPassenger 1 false 3 "Braund, Mr. Owen Harris" "male" (Some 22%Q) 1 0
    "A/5 21171" (725 # 100) None (Some "S"%string).

Definition cumings : PassengerRecord :=
  mkPassenger 2 true 1 "Cumings, Mrs. John Bradley (Florence Briggs Thayer)"
    "female" (Some 38%Q) 1 0 "PC 17599" (712833 # 10000)
    (Some "C85"%string) (Some "C"%string).

Definition heikkinen : PassengerRecord :=
  mkPassenger 3 true 3 "Heikkinen, Miss. Laina" "female" (Some 26%Q) 0 0
    "STON/O2. 3101282" (7925 # 1000) None (Some "S"%string).

Definition moran : PassengerRecord :=
  mkPassenger 6 false 3 "Moran, Mr. James" "male" None 0 0
    "330877" (84583 # 10000) None (Some "Q"%string).

Definition palsson : PassengerRecord :=
  mkPassenger 8 false 3 "Palsson, Master. Gosta Leonard" "male" (Some 2%Q)
    3 1 "349909" (21075 # 1000) None (Some "S"%string).

Definition nasser : PassengerRecord :=
  mkPassenger 10 true 2 "Nasser, Mrs. Nicholas (Adele Achem)" "female"
    (Some 14%Q) 1 0 "237736" (300708 # 10000) None (Some "C"%string).

(** A row whose age field reads 0. *)
Definition newborn : PassengerRecord :=
  mkPassenger 900 true 3 "Doe, Master. John" "male" (Some 0%Q) 0 2
    "1" (10 # 1) None (Some "S"%string).

Definition sample : list PassengerRecord :=
  [braund; cumings; heikkinen; moran; palsson; nasser].

Definition allen : PassengerRecord :=
  mkPassenger 5 false 3 "Allen, Mr. William Henry" "male" (Some 35%Q) 0 0
    "373450" (805 # 100) None (Some "S"%string).

Definition bing : PassengerRecord :=
  mkPassenger 75 true 3 "Bing, Mr. Lee" "male" (Some 32%Q) 0 0
    "1601" (564958 # 10000) None (Some "S"%string).

(** A second-class passenger of a given age. *)
Definition aged (id : Z) (age : option Q) : PassengerRecord :=
  mkPassenger id false 2 "Doe, Mr. John" "male" age 0 0
    "0" (13 # 1) None (Some "S"%string).

(** A passenger entered under a single name. *)
Definition cher : PassengerRecord :=
  mkPassenger 901 true 1 "  Cher " "female" (Some 30%Q) 0 0
    "2" (10 # 1) None (Some "S"%string).

(** ** Further vocabulary for survival_demographics *)

(** The group key of a surviving row; the other rows have none. *)
Definition survivor_key (r : PassengerRecord)
  : option (Z * string * age_label) :=
  if Survived r then demographic_key r else None.

(** The order of the rows that [sort_values] leaves: by class, then by
    sex, then by the order of the age groups. *)
Definition demographics_order (label_leb : age_label -> age_label -> bool)
  (v w : Demographics.row) : Prop :=
  Demographics.Pclass v < Demographics.Pclass w \/
  (Demographics.Pclass v = Demographics.Pclass w /\
   (String.ltb (Demographics.Sex v) (Demographics.Sex w) = true \/
    (Demographics.Sex v = Demographics.Sex w /\
     label_leb (Demographics.age_group v) (Demographics.age_group w) = true))).

(** ** app.py: the findings about last names *)

(** [name_counts[name_counts > 1]] *)
Definition families_with_multiple_members (name_counts : list (string * Z))
  : list (string * Z) :=
  filter (fun e => 1 <? snd e) name_counts.

(** [Series.max()]: NaN for an empty series. *)
Definition series_max (s : list (string * Z)) : option Z :=
  match s with
  | [] => None
  | e :: s' => Some (fold_left Z.max (map snd s') (snd e))
  end.

(** [Series.idxmax()]: the label of the first row that holds the maximum;
    [None] is the ValueError for an empty series. *)
Definition idxmax (s : list (string * Z)) : option string :=
  match series_max s with
  | Some m => option_map fst (find (fun e => snd e =? m) s)
  | None => None
  end.

(** The number of records with the surname [s]. *)
Definition bearers (df : list PassengerRecord) (s : string) : Z :=
  Z.of_nat (length (filter (fun r => String.eqb (surname (Name r)) s) df)).

(** ** visualize_age_division: the table behind the chart *)

Module AgeDivision.
Record row := mk {
  Pclass : Z;
  older_passenger : bool;
  n_passengers : Z;              (* ('PassengerId', 'count') *)
  n_survivors : Z;               (* ('Survived', 'sum') *)
  survival_rate : option Q;      (* ('Survived', 'mean') *)
  age_division : option string
}.

Definition index (w : row) : Z * bool := (Pclass w, older_passenger w).
End AgeDivision.

(** The key in a cell of a boolean column. *)
Definition bool_key (x : cell) : option bool :=
  match x with
  | Bool b => Some b
  | _ => None
  end.

(** [notna] on one cell. *)
Definition notna (x : cell) : bool :=
  match x with
  | NaN => false
  | _ => true
  end.

(** A row of the frame, as far as the aggregation reads it: the two key
    cells, then the [PassengerId] and [Survived] cells. *)
Definition division_key (row : (cell * cell) * (cell * cell))
  : option (Z * bool) :=
  match int_key (fst (fst row)), bool_key (snd (fst row)) with
  | Some c, Some b => Some (c, b)
  | _, _ => None
  end.

Definition division_eqb (k k' : Z * bool) : bool :=
  (fst k =? fst k') && Bool.eqb (snd k) (snd k').

(** Key tuples in sorted order: by class, then False before True. *)
Definition division_leb (k k' : Z * bool) : bool :=
  (fst k <? fst k') || ((fst k =? fst k') && implb (snd k) (snd k')).

(** [Series.map(d)] for a dict [d]: NaN where the key is missing. *)
Definition map_dict (d : list (bool * string)) (b : bool) : option string :=
  option_map snd (find (fun entry => Bool.eqb (fst entry) b) d).

Definition age_division_labels : list (bool * string) :=
  [(true, "Above Median Age"%string); (false, "Below/At Median Age"%string)].

(** The table [age_survival] that [visualize_age_division] builds from the
    frame of [determine_age_division] and hands to [px.bar]. *)
Definition age_survival (df : DataFrame) : option (list AgeDivision.row) :=
  pclass <- getitem df "Pclass" ;;
  older_passenger <- getitem df "older_passenger" ;;
  passenger_id <- getitem df "PassengerId" ;;
  survived <- getitem df "Survived" ;;
  let rows := combine (combine pclass older_passenger)
                      (combine passenger_id survived) in
  let index :=
    sorted division_leb (unique division_eqb (dropna (map division_key rows))) in
  Some (map (fun k =>
               let members := get_group division_key division_eqb k rows in
               let survived :=
                 dropna (map (fun row => int_key (snd (snd row))) members) in
               AgeDivision.mk (fst k) (snd k)
                 (Z.of_nat (length (filter notna
                                      (map (fun row => fst (snd row)) members))))
                 (sum survived)
                 (option_map (round 3) (mean survived))
                 (map_dict age_division_labels (snd k)))
            index).

(** The data of the chart of [visualize_age_division]; the chart itself
    ([px.bar] and its layout) is not part of the embedding. *)
Definition visualize_age_division_data (rows : list PassengerRecord)
  : option (list AgeDivision.row) :=
  df <- determine_age_division rows ;;
  age_survival df.

(** The group key of a record, and the records of a group. *)
Definition record_division (rows : list PassengerRecord) (r : PassengerRecord)
  : option (Z * bool) :=
  Some (Pclass r, older rows r).

Definition division_members (rows : list PassengerRecord) (k : Z * bool)
  : list PassengerRecord :=
  get_group (record_division rows) division_eqb k rows.

Definition division_cells (rows : list PassengerRecord) (r : PassengerRecord)
  : (cell * cell) * (cell * cell) :=
  ((Int (Pclass r), Bool (older rows r)),
   (Int (PassengerId r), Int (Z.b2z (Survived r)))).

Definition division_stats (rows : list PassengerRecord) (k : Z * bool)
  : AgeDivision.row :=
  let members := division_members rows k in
  let survived := map (fun r => Z.b2z (Survived r)) members in
  AgeDivision.mk (fst k) (snd k) (Z.of_nat (length members)) (sum survived)
    (option_map (round 3) (mean survived))
    (Some (if snd k then "Above Median Age" else "Below/At Median Age")%string).

Definition division_index (rows : list PassengerRecord) : list (Z * bool) :=
  sorted division_leb
    (unique division_eqb (map (fun r => (Pclass r, older rows r)) rows)).

(** * Part II: properties *)

(** ** Facts about the helpers *)

Section SortingFacts.
Context {A : Type} (leb : A -> A -> bool).

Lemma insert_perm x l : Permutation (x :: l) (insert leb x l).
Proof.
  induction l as [|y l IH]; simpl; [reflexivity|].
  destruct (leb x y); [reflexivity|].
  rewrite perm_swap. now constructor.
Qed.

Lemma sorted_perm l : Permutation l (sorted leb l).
Proof.
  induction l as [|x l IH]; simpl; [constructor|].
  rewrite <- insert_perm. now constructor.
Qed.

Lemma sorted_In x l : In x (sorted leb l) <-> In x l.
Proof.
  split; apply Permutation_in;
    [symmetry|]; apply sorted_perm.
Qed.

Lemma sorted_NoDup l : NoDup l -> NoDup (sorted leb l).
Proof. apply Permutation_NoDup, sorted_perm. Qed.

Hypothesis leb_total : forall x y, leb x y = true \/ leb y x = true.

Lemma insert_Sorted x l :
  Sorted (fun a b => leb a b = true) l ->
  Sorted (fun a b => leb a b = true) (insert leb x l).
Proof.
  induction 1 as [|y l Hs IH Hhd]; simpl.
  - repeat constructor.
  - destruct (leb x y) eqn:E.
    + repeat constructor; assumption.
    + constructor; [assumption|].
      destruct (leb_total x y) as [H'|H']; [congruence|].
      destruct l as [|z l]; simpl; [now constructor|].
      destruct (leb x z); constructor; try assumption.
      now inversion Hhd.
Qed.

Lemma sorted_Sorted l : Sorted (fun a b => leb a b = true) (sorted leb l).
Proof.
  induction l; simpl; [constructor|]. now apply insert_Sorted.
Qed.

End SortingFacts.

Section UniqueFacts.
Context {A : Type} (eqb : A -> A -> bool).
Hypothesis eqb_spec : forall x y, reflect (x = y) (eqb x y).

Lemma unique_In x l : In x (unique eqb l) <-> In x l.
Proof using eqb_spec.
  induction l as [|y l IH]; simpl; [tauto|].
  rewrite filter_In, IH.
  destruct (eqb_spec y x) as [->|Hne]; simpl; [tauto|].
  intuition congruence.
Qed.

Lemma unique_NoDup l : NoDup (unique eqb l).
Proof using eqb_spec.
  induction l as [|y l IH]; simpl; constructor.
  - rewrite filter_In. intros [_ H].
    destruct (eqb_spec y y); [discriminate|congruence].
  - now apply NoDup_filter.
Qed.
End UniqueFacts.

Section GroupCountFacts.
Context {R K : Type} (key : R -> option K) (eqb : K -> K -> bool).
Hypothesis eqb_spec : forall x y, reflect (x = y) (eqb x y).

Lemma in_group_iff k r : in_group key eqb k r = true <-> key r = Some k.
Proof using eqb_spec.
  unfold in_group. destruct (key r) as [k'|]; [|split; discriminate].
  destruct (eqb_spec k' k); split; congruence.
Qed.

Lemma sum_indicator k ks :
  NoDup ks ->
  sum (map (fun k' => if eqb k k' then 1 else 0) ks)
  = if existsb (eqb k) ks then 1 else 0.
Proof using eqb_spec.
  induction 1 as [|k' ks Hnin Hnd IH]; simpl; [reflexivity|].
  rewrite IH. destruct (eqb_spec k k') as [<-|Hne]; simpl; [|reflexivity].
  destruct (existsb (eqb k) ks) eqn:E; [|reflexivity].
  apply existsb_exists in E. destruct E as [x [Hx Hkx]].
  destruct (eqb_spec k x); [subst; contradiction|discriminate].
Qed.

Lemma sum_zero ks : sum (map (fun _ : K => 0) ks) = 0.
Proof. induction ks; simpl; lia. Qed.

Lemma sum_add (f g : K -> Z) ks :
  sum (map (fun k => f k + g k) ks) = sum (map f ks) + sum (map g ks).
Proof. induction ks; simpl; lia. Qed.

(** Every row with a key among [ks] is counted once: the group sizes add up
    to the number of rows that have a key. *)
Lemma sum_size ks df :
  NoDup ks ->
  (forall r k, In r df -> key r = Some k -> In k ks) ->
  sum (map (fun k => size key eqb k df) ks)
  = Z.of_nat (length (filter (has_key key) df)).
Proof using eqb_spec.
  intros Hnd. induction df as [|r df IH]; intros Hin.
  - unfold size; simpl. apply sum_zero.
  - assert (IH' := IH (fun r' k Hr => Hin r' k (or_intror Hr))).
    transitivity
      (sum (map (fun k => (if in_group key eqb k r then 1 else 0) + size key eqb k df) ks)).
    { f_equal. apply map_ext. intros k. unfold size, get_group; simpl.
      destruct (in_group key eqb k r); simpl length; lia. }
    rewrite sum_add, IH'. simpl filter. unfold has_key at 2, in_group.
    destruct (key r) as [k|] eqn:Ek.
    + rewrite (sum_indicator k ks Hnd).
      assert (E : existsb (eqb k) ks = true).
      { apply existsb_exists. exists k. split.
        - eapply Hin; [now left|exact Ek].
        - now destruct (eqb_spec k k). }
      rewrite E. simpl length. lia.
    + rewrite sum_zero. lia.
Qed.
End GroupCountFacts.

Section Product.
Context {A B C : Type}.

Lemma product_row_length (x : A) (ys : list B) (zs : list C) :
  length (flat_map (fun y => map (fun z => (x, y, z)) zs) ys)
  = (length ys * length zs)%nat.
Proof.
  induction ys as [|y ys IH]; simpl; [reflexivity|].
  now rewrite length_app, length_map, IH.
Qed.

Lemma product_length (xs : list A) (ys : list B) (zs : list C) :
  length (product xs ys zs) = (length xs * length ys * length zs)%nat.
Proof.
  unfold product. induction xs as [|x xs IH]; simpl; [reflexivity|].
  rewrite length_app, IH, product_row_length. lia.
Qed.

Lemma product_In (xs : list A) (ys : list B) (zs : list C) x y z :
  In (x, y, z) (product xs ys zs) <-> In x xs /\ In y ys /\ In z zs.
Proof.
  unfold product. rewrite in_flat_map. split.
  - intros [x' [Hx H]]. apply in_flat_map in H. destruct H as [y' [Hy H]].
    apply in_map_iff in H. destruct H as [z' [E Hz]].
    inversion E; subst. auto.
  - intros [Hx [Hy Hz]]. exists x. split; [exact Hx|].
    apply in_flat_map. exists y. split; [exact Hy|].
    apply in_map_iff. now exists z.
Qed.

Lemma product_row_NoDup (x : A) (ys : list B) (zs : list C) :
  NoDup ys -> NoDup zs ->
  NoDup (flat_map (fun y => map (fun z => (x, y, z)) zs) ys).
Proof.
  intros Hys Hzs. induction Hys as [|y ys Hy Hys IH]; simpl; [constructor|].
  apply NoDup_app; [|exact IH|].
  - apply NoDup_map_NoDup_ForallPairs; [|exact Hzs].
    intros z z' _ _ E. now inversion E.
  - intros [[x' y'] z'] H1 H2.
    apply in_map_iff in H1. destruct H1 as [z1 [E1 _]].
    apply in_flat_map in H2. destruct H2 as [y2 [Hy2 H2]].
    apply in_map_iff in H2. destruct H2 as [z2 [E2 _]].
    inversion E1; inversion E2; subst. contradiction.
Qed.

Lemma product_NoDup (xs : list A) (ys : list B) (zs : list C) :
  NoDup xs -> NoDup ys -> NoDup zs -> NoDup (product xs ys zs).
Proof.
  intros Hxs Hys Hzs. unfold product.
  induction Hxs as [|x xs Hx Hxs IH]; simpl; [constructor|].
  apply NoDup_app; [now apply product_row_NoDup|exact IH|].
  intros [[x' y'] z'] H1 H2.
  apply in_flat_map in H1. destruct H1 as [y1 [_ H1]].
  apply in_map_iff in H1. destruct H1 as [z1 [E1 _]].
  apply in_flat_map in H2. destruct H2 as [x2 [Hx2 H2]].
  apply in_flat_map in H2. destruct H2 as [y2 [_ H2]].
  apply in_map_iff in H2. destruct H2 as [z2 [E2 _]].
  inversion E1; inversion E2; subst. contradiction.
Qed.
End Product.

(** ** Facts about rounding *)

Lemma rint_close q : (Qabs (inject_Z (rint q) - q) <= 1 # 2)%Q.
Proof.
  unfold rint.
  pose proof (Qfloor_le q) as Hlo. pose proof (Qlt_floor q) as Hhi.
  set (f := Qfloor q) in *.
  rewrite inject_Z_plus in Hhi. change (inject_Z 1) with 1%Q in Hhi.
  apply Qabs_Qle_condition.
  destruct (q - inject_Z f ?= 1 # 2)%Q eqn:E.
  - apply Qeq_alt in E.
    destruct (Z.even f); [|rewrite inject_Z_plus; change (inject_Z 1) with 1%Q];
      split; lra.
  - apply Qlt_alt in E. split; lra.
  - apply Qgt_alt in E. rewrite inject_Z_plus. change (inject_Z 1) with 1%Q.
    split; lra.
Qed.

Lemma rint_bounds q : Qfloor q <= rint q <= Qfloor q + 1.
Proof.
  unfold rint. destruct (q - inject_Z (Qfloor q) ?= 1 # 2)%Q; [|lia|lia].
  destruct (Z.even (Qfloor q)); lia.
Qed.

Lemma rint_mono x y : (x <= y)%Q -> rint x <= rint y.
Proof.
  intros Hxy. pose proof (Qfloor_resp_le _ _ Hxy) as Hf.
  destruct (Z.eq_dec (Qfloor x) (Qfloor y)) as [E|N].
  - unfold rint. rewrite <- E.
    destruct (x - inject_Z (Qfloor x) ?= 1 # 2)%Q eqn:Ex;
      destruct (y - inject_Z (Qfloor x) ?= 1 # 2)%Q eqn:Ey;
      try (destruct (Z.even (Qfloor x)); lia); try lia;
      repeat match goal with
        | H : (_ ?= _)%Q = Eq |- _ => apply Qeq_alt in H
        | H : (_ ?= _)%Q = Lt |- _ => apply Qlt_alt in H
        | H : (_ ?= _)%Q = Gt |- _ => apply Qgt_alt in H
        end; exfalso; lra.
  - pose proof (rint_bounds x). pose proof (rint_bounds y). lia.
Qed.

Lemma rint_inject_Z z : rint (inject_Z z) = z.
Proof.
  unfold rint. rewrite Qfloor_Z.
  assert (E : (inject_Z z - inject_Z z ?= 1 # 2)%Q = Lt).
  { rewrite <- Qlt_alt. generalize (inject_Z z). intros u. lra. }
  now rewrite E.
Qed.

(** ** Facts about double precision *)

Lemma pow2_pos e : (0 < pow2 e)%Q.
Proof. apply Qpower_0_lt. reflexivity. Qed.

Lemma pow2_add a b : (pow2 (a + b) == pow2 a * pow2 b)%Q.
Proof. apply Qpower_plus. discriminate. Qed.

Lemma pow2_le a b : a <= b -> (pow2 a <= pow2 b)%Q.
Proof. intros H. apply Qpower_le_compat_l; [exact H|discriminate]. Qed.

Lemma pow2_inject e : 0 <= e -> (pow2 e == inject_Z (2 ^ e))%Q.
Proof. intros H. symmetry. now apply Zpower_Qpower. Qed.

Lemma log2_bracket n :
  0 < n -> (pow2 (Z.log2 n) <= inject_Z n < pow2 (Z.log2 n + 1))%Q.
Proof.
  intros Hn. pose proof (Z.log2_spec n Hn) as [Hlo Hhi].
  pose proof (Z.log2_nonneg n) as H0.
  rewrite !pow2_inject by lia. rewrite <- Zle_Qle, <- Zlt_Qlt.
  split; [exact Hlo|]. now rewrite <- Z.add_1_r in Hhi.
Qed.

Lemma ilog2_spec q :
  (0 < q)%Q -> (pow2 (ilog2 q) <= q < pow2 (ilog2 q + 1))%Q.
Proof.
  intros Hq. unfold ilog2.
  assert (Ha : 0 < Qnum q).
  { destruct q as [a b]. unfold Qlt in Hq. simpl in *. lia. }
  pose proof (log2_bracket (Qnum q) Ha) as [Ha1 Ha2].
  pose proof (log2_bracket (Zpos (Qden q)) (Pos2Z.is_pos _)) as [Hb1 Hb2].
  set (la := Z.log2 (Qnum q)) in *. set (lb := Z.log2 (Zpos (Qden q))) in *.
  assert (Eq : (q * inject_Z (Zpos (Qden q)) == inject_Z (Qnum q))%Q).
  { destruct q as [a b]. unfold Qeq, inject_Z, Qmult. simpl. lia. }
  assert (HB : (0 < inject_Z (Zpos (Qden q)))%Q) by (now rewrite <- (Zlt_Qlt 0)).
  set (A := inject_Z (Qnum q)) in *. set (B := inject_Z (Zpos (Qden q))) in *.
  assert (Hup : (q < pow2 (la - lb + 1))%Q).
  { apply (Qmult_lt_r _ _ B HB). rewrite Eq.
    apply Qlt_le_trans with (pow2 (la + 1)); [exact Ha2|].
    replace (la + 1) with ((la - lb + 1) + lb) by lia. rewrite pow2_add.
    apply Qmult_le_l; [apply pow2_pos|exact Hb1]. }
  assert (Hdn : (pow2 (la - lb - 1) < q)%Q).
  { apply (Qmult_lt_r _ _ B HB). rewrite Eq.
    apply Qlt_le_trans with (pow2 la); [|exact Ha1].
    replace la with ((la - lb - 1) + (lb + 1)) at 2 by lia. rewrite pow2_add.
    apply Qmult_lt_l; [apply pow2_pos|exact Hb2]. }
  destruct (Qle_bool (pow2 (la - lb)) q) eqn:E.
  - apply Qle_bool_iff in E. split; [exact E|exact Hup].
  - assert (Hlt : (q < pow2 (la - lb))%Q).
    { apply Qnot_le_lt. intros H. apply Qle_bool_iff in H. congruence. }
    replace (la - lb - 1 + 1) with (la - lb) by lia.
    split; [apply Qlt_le_weak; exact Hdn|exact Hlt].
Qed.

Lemma ilog2_mono x y : (0 < x)%Q -> (x <= y)%Q -> ilog2 x <= ilog2 y.
Proof.
  intros Hx Hxy.
  assert (Hy : (0 < y)%Q) by (eapply Qlt_le_trans; eauto).
  destruct (ilog2_spec x Hx) as [Hx1 _]. destruct (ilog2_spec y Hy) as [_ Hy2].
  destruct (Z_le_gt_dec (ilog2 x) (ilog2 y)) as [H|H]; [exact H|exfalso].
  assert (H' : (pow2 (ilog2 y + 1) <= pow2 (ilog2 x))%Q) by (apply pow2_le; lia).
  apply (Qlt_irrefl y).
  eapply Qlt_le_trans; [exact Hy2|].
  eapply Qle_trans; [exact H'|]. eapply Qle_trans; [exact Hx1|exact Hxy].
Qed.

Lemma rint_nonneg q : (0 <= q)%Q -> 0 <= rint q.
Proof. intros H. rewrite <- (rint_inject_Z 0). now apply rint_mono. Qed.

Lemma fl_pos_nonneg q : (0 < q)%Q -> (0 <= fl_pos q)%Q.
Proof.
  intros Hq. unfold fl_pos.
  apply Qmult_le_0_compat; [|apply Qlt_le_weak, pow2_pos].
  rewrite <- (Zle_Qle 0). apply rint_nonneg.
  apply Qle_shift_div_l; [apply pow2_pos|]. rewrite Qmult_0_l.
  now apply Qlt_le_weak.
Qed.

(** The scaled significand is below [2^53], and at least [2^52] above the
    subnormal range. *)
Lemma significand_upper q e :
  (0 < q)%Q -> ilog2 q - 52 <= e -> rint (q / pow2 e) <= 2 ^ 53.
Proof.
  intros Hq He. rewrite <- (rint_inject_Z (2 ^ 53)). apply rint_mono.
  apply Qle_shift_div_r; [apply pow2_pos|].
  rewrite <- pow2_inject by lia. rewrite <- pow2_add.
  destruct (ilog2_spec q Hq) as [_ H]. apply Qlt_le_weak.
  eapply Qlt_le_trans; [exact H|]. apply pow2_le. lia.
Qed.

Lemma significand_lower q :
  (0 < q)%Q -> 2 ^ 52 <= rint (q / pow2 (ilog2 q - 52)).
Proof.
  intros Hq. rewrite <- (rint_inject_Z (2 ^ 52)) at 1. apply rint_mono.
  apply Qle_shift_div_l; [apply pow2_pos|].
  rewrite <- pow2_inject by lia. rewrite <- pow2_add.
  destruct (ilog2_spec q Hq) as [H _].
  eapply Qle_trans; [|exact H]. apply pow2_le. lia.
Qed.

Lemma fl_pos_mono x y : (0 < x)%Q -> (x <= y)%Q -> (fl_pos x <= fl_pos y)%Q.
Proof.
  intros Hx Hxy.
  assert (Hy : (0 < y)%Q) by (eapply Qlt_le_trans; eauto).
  pose proof (ilog2_mono x y Hx Hxy) as Hl.
  unfold fl_pos.
  set (ex := Z.max (-1074) (ilog2 x - 52)).
  set (ey := Z.max (-1074) (ilog2 y - 52)).
  destruct (Z.eq_dec ex ey) as [E|N].
  - rewrite E. apply Qmult_le_compat_r; [|apply Qlt_le_weak, pow2_pos].
    rewrite <- Zle_Qle. apply rint_mono.
    apply Qmult_le_compat_r; [exact Hxy|].
    apply Qlt_le_weak, Qinv_lt_0_compat, pow2_pos.
  - assert (Hey : ey = ilog2 y - 52 /\ ex + 1 <= ey) by (unfold ex, ey in *; lia).
    destruct Hey as [Hey Hlt].
    apply Qle_trans with (pow2 (ex + 53)).
    + replace (ex + 53) with (53 + ex) by lia. rewrite pow2_add.
      apply Qmult_le_compat_r; [|apply Qlt_le_weak, pow2_pos].
      rewrite (pow2_inject 53) by lia. rewrite <- Zle_Qle.
      apply significand_upper; [exact Hx|unfold ex; lia].
    + apply Qle_trans with (pow2 (52 + ey)); [apply pow2_le; lia|].
      rewrite pow2_add.
      apply Qmult_le_compat_r; [|apply Qlt_le_weak, pow2_pos].
      rewrite (pow2_inject 52) by lia. rewrite <- Zle_Qle.
      rewrite Hey. now apply significand_lower.
Qed.

Lemma fl_nonneg q : (0 <= q)%Q -> (0 <= fl q)%Q.
Proof.
  intros H. unfold fl. destruct (q ?= 0)%Q eqn:E.
  - apply Qle_refl.
  - rewrite <- Qlt_alt in E. exfalso. lra.
  - rewrite <- Qgt_alt in E. now apply fl_pos_nonneg.
Qed.

Lemma fl_mono x y : (x <= y)%Q -> (fl x <= fl y)%Q.
Proof.
  intros H. unfold fl.
  destruct (x ?= 0)%Q eqn:Ex; destruct (y ?= 0)%Q eqn:Ey;
    repeat match goal with
      | H : (_ ?= _)%Q = Eq |- _ => rewrite <- Qeq_alt in H
      | H : (_ ?= _)%Q = Lt |- _ => rewrite <- Qlt_alt in H
      | H : (_ ?= _)%Q = Gt |- _ => rewrite <- Qgt_alt in H
      end; try (exfalso; lra).
  - apply Qle_refl.
  - now apply fl_pos_nonneg.
  - assert (H0 : (0 <= fl_pos (- x))%Q) by (apply fl_pos_nonneg; lra). lra.
  - assert (H0 : (0 <= fl_pos (- x))%Q) by (apply fl_pos_nonneg; lra).
    assert (H1 : (0 <= fl_pos (- y))%Q) by (apply fl_pos_nonneg; lra).
    assert (H2 : (fl_pos (- y) <= fl_pos (- x))%Q) by (apply fl_pos_mono; lra).
    lra.
  - assert (H0 : (0 <= fl_pos (- x))%Q) by (apply fl_pos_nonneg; lra).
    assert (H1 : (0 <= fl_pos y)%Q) by (apply fl_pos_nonneg; lra). lra.
  - now apply fl_pos_mono.
Qed.

Lemma round_mono d x y : (x <= y)%Q -> (round d x <= round d y)%Q.
Proof.
  intros H. unfold round, fdiv, fmul.
  set (p := fl (inject_Z (10 ^ Z.of_nat d))).
  assert (Hp : (0 <= p)%Q).
  { apply fl_nonneg. rewrite <- (Zle_Qle 0). apply Z.pow_nonneg. lia. }
  apply fl_mono. apply Qmult_le_compat_r.
  - rewrite <- Zle_Qle. apply rint_mono, fl_mono. now apply Qmult_le_compat_r.
  - now apply Qinv_le_0_compat.
Qed.

Lemma round3_unit_interval q : (0 <= q <= 1)%Q -> (0 <= round 3 q <= 1)%Q.
Proof.
  intros [H0 H1]. split.
  - apply Qle_trans with (round 3 0); [vm_compute; discriminate|].
    now apply round_mono.
  - apply Qle_trans with (round 3 1); [now apply round_mono|].
    vm_compute. discriminate.
Qed.

Lemma fdiv_unit_interval s n :
  0 <= s <= n -> 0 < n -> (0 <= fdiv (inject_Z s) (inject_Z n) <= 1)%Q.
Proof.
  intros Hs Hn. unfold fdiv.
  assert (Hq : (0 < inject_Z n)%Q) by (now rewrite <- (Zlt_Qlt 0)).
  split.
  - apply fl_nonneg. apply Qle_shift_div_l; [exact Hq|].
    rewrite Qmult_0_l. rewrite <- (Zle_Qle 0). lia.
  - apply Qle_trans with (fl 1); [|vm_compute; discriminate].
    apply fl_mono. apply Qle_shift_div_r; [exact Hq|].
    rewrite Qmult_1_l. rewrite <- Zle_Qle. lia.
Qed.

(** Rounding to a double moves a number by at most half a unit of the last
    place. *)
Lemma fl_pos_close q :
  (0 < q)%Q ->
  (Qabs (fl_pos q - q) <= pow2 (Z.max (-1074) (ilog2 q - 52) - 1))%Q.
Proof.
  intros Hq. unfold fl_pos.
  set (e := Z.max (-1074) (ilog2 q - 52)).
  pose proof (pow2_pos e) as He.
  pose proof (rint_close (q / pow2 e)) as H.
  set (k := inject_Z (rint (q / pow2 e))) in *.
  assert (E : (k * pow2 e - q == (k - q / pow2 e) * pow2 e)%Q) by (field; lra).
  rewrite E, Qabs_Qmult, (Qabs_pos (pow2 e)) by lra.
  replace (e - 1) with (-1 + e) by lia. rewrite pow2_add.
  change (pow2 (-1)) with (1 # 2)%Q.
  apply Qmult_le_compat_r; [exact H|lra].
Qed.

Lemma fl_close q b :
  -1022 <= b -> (0 <= q <= pow2 b)%Q -> (Qabs (fl q - q) <= pow2 (b - 53))%Q.
Proof.
  intros Hb [H0 H1]. unfold fl. destruct (q ?= 0)%Q eqn:E.
  - rewrite <- Qeq_alt in E. rewrite E. apply Qlt_le_weak, pow2_pos.
  - rewrite <- Qlt_alt in E. exfalso. lra.
  - rewrite <- Qgt_alt in E.
    eapply Qle_trans; [apply fl_pos_close; exact E|].
    apply pow2_le.
    destruct (ilog2_spec q E) as [Hl _].
    assert (Hle : ilog2 q <= b).
    { apply (Qpower_le_compat_l_inv (2 # 1)); [|reflexivity].
      eapply Qle_trans; [exact Hl|exact H1]. }
    lia.
Qed.

Lemma Qcompare_comp_l x y z : (x == y)%Q -> (x ?= z)%Q = (y ?= z)%Q.
Proof. intros H. now rewrite H. Qed.

Lemma rint_comp x y : (x == y)%Q -> rint x = rint y.
Proof.
  intros H. unfold rint. rewrite (Qfloor_comp _ _ H).
  assert (E : (x - inject_Z (Qfloor y) == y - inject_Z (Qfloor y))%Q)
    by (now rewrite H).
  now rewrite (Qcompare_comp_l _ _ _ E).
Qed.

Lemma ilog2_comp x y : (0 < x)%Q -> (x == y)%Q -> ilog2 x = ilog2 y.
Proof.
  intros Hx E. assert (Hy : (0 < y)%Q) by (now rewrite <- E).
  apply Z.le_antisymm; apply ilog2_mono; try assumption; rewrite E;
    apply Qle_refl.
Qed.

Lemma fl_pos_comp x y : (0 < x)%Q -> (x == y)%Q -> fl_pos x = fl_pos y.
Proof.
  intros Hx E. unfold fl_pos. rewrite (ilog2_comp x y Hx E).
  set (e := Z.max _ _). f_equal. f_equal. apply rint_comp. now rewrite E.
Qed.

(** [fl] gives one representation to all the fractions of one value. *)
Lemma fl_comp x y : (x == y)%Q -> fl x = fl y.
Proof.
  intros E. unfold fl. rewrite (Qcompare_comp_l x y 0 E).
  destruct (y ?= 0)%Q eqn:C.
  - reflexivity.
  - rewrite <- Qlt_alt in C. f_equal. apply fl_pos_comp; [|now rewrite E].
    rewrite E. lra.
  - rewrite <- Qgt_alt in C. apply fl_pos_comp; [|exact E]. now rewrite E.
Qed.

(** A multiple of 0.001 that is nearly a nearest one to a fraction of
    moderate denominator is a nearest one. *)
Lemma nearest_thousandth k s n :
  0 < n <= 10 ^ 11 ->
  (Qabs (inject_Z k / 1000 - inject_Z s / inject_Z n)
   <= (1 # 2000) + (1 # 10 ^ 15))%Q ->
  (Qabs (inject_Z k / 1000 - inject_Z s / inject_Z n) <= 1 # 2000)%Q.
Proof.
  intros [Hn Hmax] H.
  assert (HN : (0 < inject_Z n)%Q) by (now rewrite <- (Zlt_Qlt 0)).
  assert (HN' : (inject_Z n <= 100000000000)%Q).
  { change 100000000000%Q with (inject_Z (10 ^ 11)). now rewrite <- Zle_Qle. }
  set (d := 2 * k * n - 2000 * s).
  assert (ED : (inject_Z k / 1000 - inject_Z s / inject_Z n
                == inject_Z d / (2000 * inject_Z n))%Q).
  { unfold d. unfold Z.sub. rewrite inject_Z_plus, inject_Z_opp, !inject_Z_mult.
    change (inject_Z 2) with 2%Q. change (inject_Z 2000) with 2000%Q.
    field. lra. }
  rewrite ED in *.
  change (10 ^ 15)%positive with 1000000000000000%positive in H.
  apply Qabs_Qle_condition in H. destruct H as [Hlo Hhi].
  assert (HM : (0 < 2000 * inject_Z n)%Q) by lra.
  assert (E : (inject_Z d == inject_Z d / (2000 * inject_Z n) * (2000 * inject_Z n))%Q)
    by (field; lra).
  apply (Qmult_le_compat_r _ _ (2000 * inject_Z n)) in Hlo; [|lra].
  apply (Qmult_le_compat_r _ _ (2000 * inject_Z n)) in Hhi; [|lra].
  rewrite <- E in Hlo, Hhi.
  assert (Hd : - n <= d <= n).
  { assert (H1 : (inject_Z d < inject_Z (n + 1))%Q).
    { rewrite inject_Z_plus. change (inject_Z 1) with 1%Q.
      generalize dependent (inject_Z d). generalize dependent (inject_Z n).
      intros. lra. }
    assert (H2 : (inject_Z (- n - 1) < inject_Z d)%Q).
    { unfold Z.sub. rewrite inject_Z_plus, !inject_Z_opp. change (inject_Z 1) with 1%Q.
      generalize dependent (inject_Z d). generalize dependent (inject_Z n).
      intros. lra. }
    rewrite <- Zlt_Qlt in H1, H2. lia. }
  destruct Hd as [Hd1 Hd2].
  rewrite Zle_Qle in Hd1, Hd2. rewrite inject_Z_opp in Hd1.
  apply Qabs_Qle_condition. split.
  - apply Qle_shift_div_l; [exact HM|].
    generalize dependent (inject_Z d). generalize dependent (inject_Z n).
    intros. lra.
  - apply Qle_shift_div_r; [exact HM|].
    generalize dependent (inject_Z d). generalize dependent (inject_Z n).
    intros. lra.
Qed.

(** A rate computed and rounded in double precision: the double of a multiple
    of 0.001, which is a nearest one to the exact quotient for a count of
    moderate size, and within half a thousandth (and the rounding errors of
    the operations) of the exact quotient. *)
Lemma round3_rate s n :
  0 <= s <= n -> 0 < n ->
  let q := (inject_Z s / inject_Z n)%Q in
  let rate := round 3 (fdiv (inject_Z s) (inject_Z n)) in
  exists k,
    0 <= k <= 1000 /\ rate = fl (inject_Z k / 1000) /\
    (n <= 10 ^ 11 -> (Qabs (inject_Z k / 1000 - q) <= 1 # 2000)%Q) /\
    (Qabs (rate - q) <= (1 # 2000) + (1 # 10 ^ 15))%Q.
Proof.
  intros Hs Hn q rate.
  pose proof (fdiv_unit_interval s n Hs Hn) as Hx.
  assert (Hq : (0 <= q <= 1)%Q).
  { assert (Hp : (0 < inject_Z n)%Q) by (now rewrite <- (Zlt_Qlt 0)).
    unfold q. split.
    - apply Qle_shift_div_l; [exact Hp|].
      rewrite Qmult_0_l. rewrite <- (Zle_Qle 0). lia.
    - apply Qle_shift_div_r; [exact Hp|].
      rewrite Qmult_1_l. rewrite <- Zle_Qle. lia. }
  assert (Ex : (Qabs (fdiv (inject_Z s) (inject_Z n) - q) <= pow2 (0 - 53))%Q).
  { apply fl_close; [lia|]. exact Hq. }
  unfold rate, round. fold q in Ex.
  set (x := fdiv (inject_Z s) (inject_Z n)) in *.
  set (p := fl (inject_Z (10 ^ Z.of_nat 3))).
  assert (Ep : (p == 1000)%Q) by (vm_compute; reflexivity).
  assert (Hxp : (0 <= x * p <= 1000)%Q) by (rewrite Ep; lra).
  assert (Ey : (Qabs (fmul x p - x * p) <= pow2 (10 - 53))%Q).
  { apply fl_close; [lia|]. change (pow2 10) with 1024%Q. lra. }
  assert (Hy : (0 <= fmul x p <= 1000)%Q).
  { split; [apply fl_nonneg; lra|].
    apply Qle_trans with (fl 1000); [apply fl_mono; lra|].
    vm_compute. discriminate. }
  set (y := fmul x p) in *.
  pose proof (rint_close y) as Ek.
  assert (Hk : 0 <= rint y <= 1000).
  { split.
    - apply rint_nonneg. lra.
    - rewrite <- (rint_inject_Z 1000). apply rint_mono. apply Hy. }
  set (k := rint y) in *.
  assert (Hkq : (0 <= inject_Z k <= 1000)%Q).
  { split; [change 0%Q with (inject_Z 0)|change 1000%Q with (inject_Z 1000)];
      rewrite <- Zle_Qle; lia. }
  assert (Hz : (0 <= inject_Z k / p <= pow2 0)%Q).
  { change (pow2 0) with 1%Q. split.
    - apply Qle_shift_div_l; [lra|]. lra.
    - apply Qle_shift_div_r; [lra|]. lra. }
  assert (Er : (Qabs (fdiv (inject_Z k) p - inject_Z k / p) <= pow2 (0 - 53))%Q).
  { apply fl_close; [lia|]. exact Hz. }
  exists k. split; [exact Hk|]. split; [apply fl_comp; now rewrite Ep|].
  set (r := fdiv (inject_Z k) p) in *.
  assert (Ez : (inject_Z k / p == inject_Z k / 1000)%Q) by (now rewrite Ep).
  rewrite Ez in Er. rewrite Ep in Ey.
  change (pow2 (0 - 53)) with (1 # 9007199254740992)%Q in *.
  change (pow2 (10 - 53)) with (1 # 8796093022208)%Q in *.
  apply Qabs_Qle_condition in Ex, Ey, Ek, Er.
  assert (E1 : (inject_Z k / 1000 == inject_Z k * (1 # 1000))%Q) by field.
  assert (Hnear : (Qabs (inject_Z k / 1000 - q)
                   <= (1 # 2000) + (1 # 10 ^ 15))%Q).
  { change (10 ^ 15)%positive with 1000000000000000%positive.
    apply Qabs_Qle_condition. rewrite E1.
    generalize dependent (inject_Z k). intros kq. intros. split; lra. }
  split; [intros Hmax; apply nearest_thousandth; [lia|exact Hnear]|].
  change (10 ^ 15)%positive with 1000000000000000%positive.
  apply Qabs_Qle_condition. rewrite E1 in Er.
  generalize dependent (inject_Z k). intros kq. intros. split; lra.
Qed.

Lemma sum_perm xs ys : Permutation xs ys -> sum xs = sum ys.
Proof. induction 1; simpl; lia. Qed.

Lemma code_inj g h : code g = code h -> g = h.
Proof. destruct g, h; simpl; intros E; congruence || discriminate E. Qed.

Lemma age_label_eqb_spec g h : reflect (g = h) (age_label_eqb g h).
Proof.
  unfold age_label_eqb. destruct (Z.eqb_spec (code g) (code h)) as [E|N].
  - constructor. now apply code_inj.
  - constructor. intros ->. now apply N.
Qed.

Lemma combination_eqb_spec k k' : reflect (k = k') (combination_eqb k k').
Proof.
  destruct k as [[c s] g], k' as [[c' s'] g']. unfold combination_eqb.
  destruct (Z.eqb_spec c c') as [->|N]; simpl; [|constructor; congruence].
  destruct (String.eqb_spec s s') as [->|N]; simpl; [|constructor; congruence].
  destruct (age_label_eqb_spec g g') as [->|N]; constructor; congruence.
Qed.

(** The classes, the sexes and the combinations each occur once. *)
Lemma all_classes_NoDup df : NoDup (all_classes df).
Proof. apply sorted_NoDup, unique_NoDup, Z.eqb_spec. Qed.

Lemma all_sexes_NoDup df : NoDup (all_sexes df).
Proof. apply sorted_NoDup, unique_NoDup, String.eqb_spec. Qed.

Lemma all_classes_In df c : In c (all_classes df) <-> In c (map Pclass df).
Proof.
  unfold all_classes. rewrite sorted_In. apply unique_In, Z.eqb_spec.
Qed.

Lemma all_sexes_In df s : In s (all_sexes df) <-> In s (map Sex df).
Proof.
  unfold all_sexes. rewrite sorted_In. apply unique_In, String.eqb_spec.
Qed.

Lemma age_labels_NoDup : NoDup age_labels.
Proof.
  unfold age_labels.
  repeat (constructor; [simpl; intuition discriminate|]). constructor.
Qed.

Lemma age_labels_In g : In g age_labels.
Proof. destruct g; simpl; auto. Qed.

Lemma all_combinations_NoDup df : NoDup (all_combinations df).
Proof.
  apply product_NoDup;
    [apply all_classes_NoDup|apply all_sexes_NoDup|apply age_labels_NoDup].
Qed.

Lemma stats_index df k : Demographics.index (stats df k) = k.
Proof.
  destruct k as [[c s] g]. unfold stats, fix_rate, round_row, agg; simpl.
  now destruct (_ =? 0).
Qed.

Lemma agg_index df k : Demographics.index (round_row 3 (agg df k)) = k.
Proof. now destruct k as [[c s] g]. Qed.

Lemma find_agg df k ks :
  In k ks ->
  find (fun w => combination_eqb (Demographics.index w) k)
       (map (round_row 3) (map (agg df) ks))
  = Some (round_row 3 (agg df k)).
Proof.
  induction ks as [|k' ks IH]; [intros []|].
  cbn [map find]. rewrite agg_index.
  destruct (combination_eqb_spec k' k) as [->|N]; [reflexivity|].
  intros [E|H]; [congruence|now apply IH].
Qed.

Lemma survival_demographics_perm label_leb df :
  Permutation (map (stats df) (all_combinations df))
              (survival_demographics label_leb df).
Proof.
  unfold survival_demographics. rewrite <- sorted_perm.
  unfold reindex. rewrite map_map.
  erewrite map_ext_in; [reflexivity|].
  intros k Hk. unfold complete_index in Hk.
  change (grouped_index df) with (all_combinations df).
  cbv beta. now rewrite (find_agg df k _ Hk).
Qed.

(** ** Properties of survival_demographics *)

Lemma stats_n_passengers df k :
  Demographics.n_passengers (stats df k)
  = count (get_group demographic_key combination_eqb k df).
Proof.
  destruct k as [[c s] g]. unfold stats, fix_rate, round_row, agg; simpl.
  now destruct (_ =? 0).
Qed.

Lemma stats_n_survivors df k :
  Demographics.n_survivors (stats df k)
  = sum (map (fun r => Z.b2z (Survived r))
             (get_group demographic_key combination_eqb k df)).
Proof.
  destruct k as [[c s] g]. unfold stats, fix_rate, round_row, agg; simpl.
  now destruct (_ =? 0).
Qed.

Lemma stats_survival_rate df k :
  Demographics.survival_rate (stats df k)
  = if Demographics.n_passengers (stats df k) =? 0 then Some 0%Q
    else Some (round 3 (fdiv (inject_Z (Demographics.n_survivors (stats df k)))
                             (inject_Z (Demographics.n_passengers (stats df k))))).
Proof.
  rewrite stats_n_passengers, stats_n_survivors.
  destruct k as [[c s] g]. unfold stats, fix_rate, round_row, agg.
  cbn [Demographics.n_passengers Demographics.survival_rate].
  set (members := get_group _ _ _ _).
  destruct (count members =? 0) eqn:E; [reflexivity|].
  cbn [Demographics.survival_rate]. unfold mean, count in *.
  destruct members as [|r members]; [discriminate E|].
  cbn [map option_map length]. now rewrite length_map.
Qed.

Lemma sum_b2z_bounds {R : Type} (f : R -> bool) (l : list R) :
  0 <= sum (map (fun r => Z.b2z (f r)) l) <= Z.of_nat (length l).
Proof.
  induction l as [|r l IH]; simpl sum; simpl length; [lia|].
  destruct (f r); simpl Z.b2z; lia.
Qed.

(** Every output row is the statistics of its own combination. *)
Lemma survival_demographics_row label_leb df w :
  In w (survival_demographics label_leb df) ->
  w = stats df (Demographics.index w) /\
  In (Demographics.index w) (all_combinations df).
Proof.
  intros H.
  apply (Permutation_in _ (Permutation_sym
           (survival_demographics_perm label_leb df))) in H.
  apply in_map_iff in H. destruct H as [k [<- Hk]].
  now rewrite stats_index.
Qed.

Lemma survival_demographics_index label_leb df :
  Permutation (all_combinations df)
    (map Demographics.index (survival_demographics label_leb df)).
Proof.
  rewrite <- (survival_demographics_perm label_leb df), map_map.
  erewrite map_ext; [rewrite map_id; reflexivity|].
  intros k. apply stats_index.
Qed.

Lemma NoDup_same_length {A : Type} (l l' : list A) :
  NoDup l -> NoDup l' -> (forall x, In x l <-> In x l') ->
  length l = length l'.
Proof.
  intros H H' E. now apply Permutation_length, NoDup_Permutation.
Qed.

(** C1, as the spec states it, at a table of one passenger. *)
Lemma survival_demographics_one_passenger :
  length (survival_demographics category_leb [braund]) = 4%nat /\
  map Demographics.index (survival_demographics category_leb [braund])
  = [(3, "male"%string, Child); (3, "male"%string, Teen);
     (3, "male"%string, Adult); (3, "male"%string, Senior)].
Proof. split; reflexivity. Qed.

(** C1 (amended).  The table has one row for every combination of a class
    that occurs in the input, a sex that occurs in the input and one of the
    four age groups, each combination once: four rows per pair of an
    occurring class and an occurring sex.  A combination that no record
    matches has its row, with [n_passengers = 0], [n_survivors = 0] and
    [survival_rate = 0.0].  When the classes that occur are 1, 2, 3 and the
    sexes that occur are male and female, these are the 24 rows of the
    cross-product. *)
Theorem survival_demographics_complete :
  forall (label_leb : age_label -> age_label -> bool)
         (df : list PassengerRecord),
    let out := survival_demographics label_leb df in
    length out = (length (all_classes df) * length (all_sexes df) * 4)%nat /\
    NoDup (map Demographics.index out) /\
    (forall c s g,
        In (c, s, g) (map Demographics.index out) <->
        In c (map Pclass df) /\ In s (map Sex df)) /\
    Forall (fun w =>
              get_group demographic_key combination_eqb
                        (Demographics.index w) df = [] ->
              Demographics.n_passengers w = 0 /\
              Demographics.n_survivors w = 0 /\
              Demographics.survival_rate w = Some 0%Q) out /\
    ((forall c, In c (map Pclass df) <-> c = 1 \/ c = 2 \/ c = 3) ->
     (forall s, In s (map Sex df) <-> s = "male"%string \/ s = "female"%string) ->
     length out = 24%nat /\
     forall c s g,
       (c = 1 \/ c = 2 \/ c = 3) ->
       (s = "male"%string \/ s = "female"%string) ->
       In (c, s, g) (map Demographics.index out)).
Proof.
  intros label_leb df out.
  pose proof (survival_demographics_index label_leb df) as Hidx.
  fold out in Hidx.
  assert (Hlen : length out
                 = (length (all_classes df) * length (all_sexes df) * 4)%nat).
  { rewrite <- (length_map Demographics.index),
      <- (Permutation_length Hidx).
    unfold all_combinations. now rewrite product_length. }
  assert (Hin : forall c s g,
             In (c, s, g) (map Demographics.index out) <->
             In c (map Pclass df) /\ In s (map Sex df)).
  { intros c s g. rewrite <- all_classes_In, <- all_sexes_In.
    split.
    - intros H. apply (Permutation_in _ (Permutation_sym Hidx)) in H.
      apply product_In in H. tauto.
    - intros [Hc Hs]. apply (Permutation_in _ Hidx).
      apply product_In. auto using age_labels_In. }
  split; [exact Hlen|]. split.
  { eapply Permutation_NoDup; [exact Hidx|apply all_combinations_NoDup]. }
  split; [exact Hin|]. split.
  { apply Forall_forall. intros w Hw Hempty.
    destruct (survival_demographics_row _ _ _ Hw) as [E _].
    rewrite E, stats_survival_rate, stats_n_survivors, stats_n_passengers.
    rewrite Hempty. simpl. auto. }
  intros Hc Hs. split.
  - rewrite Hlen.
    rewrite (NoDup_same_length (all_classes df) [1; 2; 3]),
      (NoDup_same_length (all_sexes df) ["male"%string; "female"%string]).
    + reflexivity.
    + apply all_sexes_NoDup.
    + repeat (constructor; [simpl; intuition discriminate|]). constructor.
    + intros s. rewrite all_sexes_In, Hs. simpl. intuition.
    + apply all_classes_NoDup.
    + repeat (constructor; [simpl; intuition lia|]). constructor.
    + intros c. rewrite all_classes_In, Hc. simpl. intuition.
  - intros c s g Hc' Hs'. apply Hin. now rewrite Hc, Hs.
Qed.

(** The amended C1 at [sample], where the three classes and the two sexes
    all occur. *)
Lemma survival_demographics_complete_witness :
  length (survival_demographics category_leb sample) = 24%nat /\
  In (2, "female"%string, Senior)
     (map Demographics.index (survival_demographics category_leb sample)).
Proof.
  destruct (survival_demographics_complete category_leb sample)
    as (_ & _ & _ & _ & H).
  destruct H as [Hlen Hall].
  - intros c. simpl. intuition lia.
  - intros s. simpl. intuition congruence.
  - split; [exact Hlen|]. apply Hall; auto.
Defined.

(** C3.  In every row [n_survivors <= n_passengers], and a row with
    [n_passengers > 0] has for [survival_rate] the quotient
    [n_survivors / n_passengers] rounded to 3 decimal places, as the code
    computes it in double precision: [round(3)] of the quotient of the two
    counts.  That is the double of a multiple [k / 1000] of 0.001, which is a
    nearest one to the exact quotient (for a row of at most [10^11]
    passengers), and the rate lies within half a thousandth, and the error
    of the floating-point operations, of the exact quotient. *)
Theorem survival_rate_rounded :
  forall (label_leb : age_label -> age_label -> bool)
         (df : list PassengerRecord),
    Forall (fun w =>
              let s := Demographics.n_survivors w in
              let n := Demographics.n_passengers w in
              0 <= s <= n /\
              (0 < n ->
               exists rate k,
                 Demographics.survival_rate w = Some rate /\
                 rate = round 3 (fdiv (inject_Z s) (inject_Z n)) /\
                 0 <= k <= 1000 /\ rate = fl (inject_Z k / 1000) /\
                 (n <= 10 ^ 11 ->
                  (Qabs (inject_Z k / 1000 - inject_Z s / inject_Z n)
                   <= 1 # 2000)%Q) /\
                 (Qabs (rate - inject_Z s / inject_Z n)
                  <= (1 # 2000) + (1 # 10 ^ 15))%Q))
           (survival_demographics label_leb df).
Proof.
  intros label_leb df. apply Forall_forall. intros w Hw. cbv zeta.
  destruct (survival_demographics_row _ _ _ Hw) as [E _].
  assert (Hb : 0 <= Demographics.n_survivors w <= Demographics.n_passengers w).
  { rewrite E, stats_n_survivors, stats_n_passengers. apply sum_b2z_bounds. }
  split; [exact Hb|].
  intros Hpos.
  destruct (round3_rate _ _ Hb Hpos) as (k & Hk & Ek & Hnear & Hclose).
  eexists. exists k. split; [|split; [reflexivity|]].
  - rewrite E, stats_survival_rate. rewrite <- E.
    destruct (Z.eqb_spec (Demographics.n_passengers w) 0); [lia|].
    reflexivity.
  - split; [exact Hk|]. split; [exact Ek|]. split; [exact Hnear|exact Hclose].
Qed.

Lemma Qle_bool_false x y : Qle_bool x y = false <-> (y < x)%Q.
Proof.
  rewrite <- not_true_iff_false, Qle_bool_iff. split.
  - apply Qnot_le_lt.
  - apply Qlt_not_le.
Qed.

Lemma cut_age a :
  cut age_bins age_labels a =
  if Qle_bool a 0 then None
  else if Qle_bool a 12 then Some Child
  else if Qle_bool a 19 then Some Teen
  else if Qle_bool a 59 then Some Adult
  else Some Senior.
Proof.
  unfold age_bins, age_labels. simpl.
  destruct (Qle_bool a 0) eqn:E0, (Qle_bool a 12) eqn:E12,
    (Qle_bool a 19) eqn:E19, (Qle_bool a 59) eqn:E59; simpl; try reflexivity;
    repeat match goal with
      | H : Qle_bool _ _ = true |- _ => apply Qle_bool_iff in H
      | H : Qle_bool _ _ = false |- _ => apply Qle_bool_false in H
      end; lra.
Qed.

(** C5, as the spec states it, at the defined age 0: no category. *)
Lemma age_group_zero : age_group newborn = None.
Proof. reflexivity. Qed.

(** C5 (amended).  Every defined age above 0 is in exactly one of the four
    categories, the one whose bin among (0,12], (12,19], (19,59], (59,inf)
    holds it; a defined age of 0 or less, like an absent age, has no
    category. *)
Theorem age_group_partition :
  forall r : PassengerRecord,
    match Age r with
    | None => age_group r = None
    | Some a =>
        (age_group r = None <-> a <= 0)%Q /\
        (age_group r = Some Child <-> 0 < a /\ a <= 12)%Q /\
        (age_group r = Some Teen <-> 12 < a /\ a <= 19)%Q /\
        (age_group r = Some Adult <-> 19 < a /\ a <= 59)%Q /\
        (age_group r = Some Senior <-> 59 < a)%Q /\
        ((0 < a)%Q -> exists g, age_group r = Some g /\
                       forall h, age_group r = Some h -> h = g)
    end.
Proof.
  intros r. unfold age_group. destruct (Age r) as [a|]; [|reflexivity].
  rewrite cut_age.
  destruct (Qle_bool a 0) eqn:E0, (Qle_bool a 12) eqn:E12,
    (Qle_bool a 19) eqn:E19, (Qle_bool a 59) eqn:E59;
    repeat match goal with
      | H : Qle_bool _ _ = true |- _ => apply Qle_bool_iff in H
      | H : Qle_bool _ _ = false |- _ => apply Qle_bool_false in H
      end;
    try (exfalso; lra);
    (repeat split; try discriminate; try lra;
     try (intros; exfalso; lra);
     try (intros _; eexists; split; [reflexivity|congruence])).
Qed.

Lemma has_key_age_positive r :
  has_key demographic_key r = age_positive r.
Proof.
  unfold has_key, demographic_key, age_group, age_positive.
  destruct (Age r) as [a|]; [|reflexivity].
  rewrite cut_age.
  destruct (Qle_bool a 0), (Qle_bool a 12), (Qle_bool a 19),
    (Qle_bool a 59); reflexivity.
Qed.

Lemma demographic_key_In df r k :
  In r df -> demographic_key r = Some k -> In k (all_combinations df).
Proof.
  unfold demographic_key. intros Hr.
  destruct (age_group r) as [g|]; [|discriminate].
  intros [= <-]. apply product_In. split; [|split].
  - apply all_classes_In. now apply in_map.
  - apply all_sexes_In. now apply in_map.
  - apply age_labels_In.
Qed.

(** C4, as the spec states it, at a table of one passenger of age 0: the
    age is defined and no row counts the passenger. *)
Lemma age_zero_not_counted :
  sum (map Demographics.n_passengers
           (survival_demographics category_leb [newborn])) = 0 /\
  Z.of_nat (length (filter age_defined [newborn])) = 1.
Proof. split; reflexivity. Qed.

(** C4 (amended).  Each row counts the records of its own group, a record
    whose age is absent is in no group, and the sum of [n_passengers] over
    all rows is the number of records whose age is defined and above 0. *)
Theorem absent_age_excluded :
  forall (label_leb : age_label -> age_label -> bool)
         (df : list PassengerRecord),
    let out := survival_demographics label_leb df in
    let members w :=
      get_group demographic_key combination_eqb (Demographics.index w) df in
    Forall (fun w =>
              Demographics.n_passengers w = Z.of_nat (length (members w)) /\
              Demographics.n_survivors w
              = sum (map (fun r => Z.b2z (Survived r)) (members w)) /\
              Forall (fun r => Age r <> None) (members w)) out /\
    (forall r k, Age r = None ->
                 in_group demographic_key combination_eqb k r = false) /\
    sum (map Demographics.n_passengers out)
    = Z.of_nat (length (filter age_positive df)).
Proof.
  intros label_leb df out members. split; [|split].
  - apply Forall_forall. intros w Hw.
    destruct (survival_demographics_row _ _ _ Hw) as [E _].
    split; [|split].
    + rewrite E at 1. apply stats_n_passengers.
    + rewrite E at 1. apply stats_n_survivors.
    + apply Forall_forall. intros r Hr.
      apply filter_In in Hr. destruct Hr as [_ Hr].
      unfold in_group, demographic_key, age_group in Hr.
      destruct (Age r); [discriminate|discriminate Hr].
  - intros r k Hr. unfold in_group, demographic_key, age_group.
    now rewrite Hr.
  - unfold out.
    rewrite <- (sum_perm _ _ (Permutation_map Demographics.n_passengers
                               (survival_demographics_perm label_leb df))).
    rewrite map_map.
    erewrite map_ext; [|intros k; apply stats_n_passengers].
    change (fun k => count (get_group demographic_key combination_eqb k df))
      with (fun k => size demographic_key combination_eqb k df).
    rewrite (sum_size demographic_key combination_eqb combination_eqb_spec).
    + f_equal. f_equal. apply filter_ext. intros r.
      apply has_key_age_positive.
    + apply all_combinations_NoDup.
    + intros r k. apply demographic_key_In.
Qed.

(** ** Facts about 64-bit integers *)

Lemma int64_range z : is_int64 (int64 z).
Proof.
  unfold is_int64, int64.
  pose proof (Z.mod_pos_bound (z + 2 ^ 63) (2 ^ 64) ltac:(reflexivity)). lia.
Qed.

Lemma int64_id z : is_int64 z -> int64 z = z.
Proof.
  unfold is_int64, int64. intros H.
  rewrite Z.mod_small; lia.
Qed.

Lemma int64_add_l x y : int64 (int64 x + y) = int64 (x + y).
Proof.
  unfold int64.
  replace ((x + 2 ^ 63) mod 2 ^ 64 - 2 ^ 63 + y + 2 ^ 63)
    with ((x + 2 ^ 63) mod 2 ^ 64 + y) by lia.
  rewrite Zplus_mod_idemp_l. f_equal. f_equal. lia.
Qed.

Lemma add64_add64 x y z : add64 (add64 x y) z = int64 (x + y + z).
Proof. unfold add64. apply int64_add_l. Qed.

(** ** Properties of family_groups *)

Lemma pair_eqb_spec k k' : reflect (k = k') (pair_eqb k k').
Proof.
  destruct k as [a b], k' as [a' b']. unfold pair_eqb; simpl.
  destruct (Z.eqb_spec a a') as [->|N]; simpl; [|constructor; congruence].
  destruct (Z.eqb_spec b b') as [->|N]; constructor; congruence.
Qed.

Lemma family_index_NoDup df : NoDup (family_index df).
Proof. apply sorted_NoDup, unique_NoDup, pair_eqb_spec. Qed.

Lemma family_index_In df k :
  In k (family_index df) <->
  exists r, In r df /\ family_size r = fst k /\ Pclass r = snd k.
Proof.
  unfold family_index.
  rewrite sorted_In, (unique_In pair_eqb pair_eqb_spec), in_map_iff.
  destruct k as [fs c]; simpl.
  split; intros [r H]; exists r.
  - destruct H as [[= <- <-] Hr]. auto.
  - destruct H as [Hr [<- <-]]. auto.
Qed.

Lemma family_agg_index df k :
  Family.index (family_round 2 (family_agg df k)) = k.
Proof. now destruct k. Qed.

Lemma family_groups_perm df :
  Permutation
    (map (fun k => family_round 2 (family_agg df k)) (family_index df))
    (family_groups df).
Proof.
  unfold family_groups. rewrite <- sorted_perm. now rewrite map_map.
Qed.

Lemma family_groups_index df :
  Permutation (family_index df) (map Family.index (family_groups df)).
Proof.
  rewrite <- (family_groups_perm df), map_map.
  erewrite map_ext; [rewrite map_id; reflexivity|].
  intros k. apply family_agg_index.
Qed.

Lemma family_groups_row df w :
  In w (family_groups df) ->
  w = family_round 2 (family_agg df (Family.index w)) /\
  In (Family.index w) (family_index df).
Proof.
  intros H.
  apply (Permutation_in _ (Permutation_sym (family_groups_perm df))) in H.
  apply in_map_iff in H. destruct H as [k [<- Hk]].
  now rewrite family_agg_index.
Qed.

Lemma family_leb_total v w : family_leb v w = true \/ family_leb w v = true.
Proof.
  unfold family_leb.
  destruct (Z.ltb_spec (Family.Pclass v) (Family.Pclass w)); simpl; [auto|].
  destruct (Z.ltb_spec (Family.Pclass w) (Family.Pclass v)); simpl; [auto|].
  replace (Family.Pclass w) with (Family.Pclass v) by lia.
  rewrite Z.eqb_refl; simpl.
  destruct (Z.leb_spec (Family.family_size v) (Family.family_size w));
    [auto|right; apply Z.leb_le; lia].
Qed.

Lemma family_leb_iff v w : family_leb v w = true <-> class_then_size v w.
Proof.
  unfold family_leb, class_then_size.
  rewrite orb_true_iff, andb_true_iff, Z.ltb_lt, Z.eqb_eq, Z.leb_le.
  reflexivity.
Qed.

Lemma class_then_size_trans u v w :
  class_then_size u v -> class_then_size v w -> class_then_size u w.
Proof. unfold class_then_size. lia. Qed.

(** C6.  Every record is grouped under its family size, which is
    [SibSp + Parch + 1] for every record whose sum fits the 64-bit integers
    of the column (beyond them the sum wraps around): each row counts the
    records whose family size and class are the row's, and the counts of all
    rows add up to the number of input records. *)
Theorem family_groups_counts_all :
  forall df : list PassengerRecord,
    Forall (fun r =>
              family_size r = int64 (SibSp r + Parch r + 1) /\
              (is_int64 (SibSp r + Parch r + 1) ->
               family_size r = SibSp r + Parch r + 1) /\
              family_key r = Some (family_size r, Pclass r)) df /\
    Forall (fun w =>
              Family.n_passengers w
              = Z.of_nat (length (filter (fun r =>
                    (family_size r =? Family.family_size w)
                    && (Pclass r =? Family.Pclass w)) df)))
           (family_groups df) /\
    sum (map Family.n_passengers (family_groups df)) = Z.of_nat (length df).
Proof.
  intros df. split; [|split].
  - apply Forall_forall. intros r _.
    assert (E : family_size r = int64 (SibSp r + Parch r + 1))
      by apply add64_add64.
    split; [exact E|]. split; [|reflexivity].
    intros H. rewrite E. now apply int64_id.
  - apply Forall_forall. intros w Hw.
    destruct (family_groups_row _ _ Hw) as [E _].
    rewrite E at 1. reflexivity.
  - rewrite <- (sum_perm _ _ (Permutation_map Family.n_passengers
                               (family_groups_perm df))).
    rewrite map_map.
    change (fun k => Family.n_passengers (family_round 2 (family_agg df k)))
      with (fun k => size family_key pair_eqb k df).
    rewrite (sum_size family_key pair_eqb pair_eqb_spec).
    + f_equal. f_equal. clear. induction df; simpl; congruence.
    + apply family_index_NoDup.
    + intros r k Hr [= <-]. apply family_index_In. exists r. auto.
Qed.

Lemma family_groups_counts_all_witness :
  is_int64 (SibSp braund + Parch braund + 1) /\
  family_size braund = 2 /\
  family_key braund = Some (2, 3) /\
  sum (map Family.n_passengers (family_groups sample)) = 6.
Proof.
  destruct (family_groups_counts_all sample) as (Hrec & _ & Hsum).
  assert (Hfit : is_int64 (SibSp braund + Parch braund + 1))
    by (unfold is_int64; simpl; lia).
  split; [exact Hfit|].
  inversion Hrec as [|r l (_ & Hsize & Hkey) _]; subst.
  split; [exact (Hsize Hfit)|]. split; [|exact Hsum].
  rewrite Hkey. rewrite (Hsize Hfit). reflexivity.
Defined.

(** Beyond the 64-bit range the sum wraps around. *)
Example family_size_wraps :
  let r := mkPassenger 1 false 3 "Doe, Mr. John" "male" None
             (2 ^ 63 - 1) 0 "1" 0 None None in
  is_int64 (SibSp r) /\ is_int64 (Parch r) /\ family_size r = - 2 ^ 63.
Proof. cbv zeta. unfold is_int64. simpl SibSp. simpl Parch. repeat split; try lia. Qed.

(** C7.  The rows are the (family_size, class) combinations that occur in
    the input, each once and no other, and they are ordered by class, then
    by family size, ascending. *)
Theorem family_groups_observed_sorted :
  forall df : list PassengerRecord,
    (forall fs c,
        In (fs, c) (map Family.index (family_groups df)) <->
        exists r, In r df /\ family_size r = fs /\ Pclass r = c) /\
    NoDup (map Family.index (family_groups df)) /\
    Forall (fun w => 0 < Family.n_passengers w) (family_groups df) /\
    StronglySorted class_then_size (family_groups df).
Proof.
  intros df. split; [|split; [|split]].
  - intros fs c. rewrite <- (family_index_In df (fs, c)).
    split; apply Permutation_in;
      [symmetry|]; apply family_groups_index.
  - eapply Permutation_NoDup;
      [apply family_groups_index|apply family_index_NoDup].
  - apply Forall_forall. intros w Hw.
    destruct (family_groups_row _ _ Hw) as [E Hk].
    apply family_index_In in Hk. destruct Hk as [r [Hr [Hfs Hc]]].
    rewrite E. cbn.
    assert (Hin : In r (get_group family_key pair_eqb (Family.index w) df)).
    { apply filter_In. split; [exact Hr|].
      apply (in_group_iff family_key pair_eqb pair_eqb_spec).
      unfold family_key. rewrite Hfs, Hc. now destruct (Family.index w). }
    unfold count. destruct (get_group _ _ _ _); [destruct Hin|simpl; lia].
  - apply Sorted_StronglySorted.
    + intros u v w. apply class_then_size_trans.
    + unfold family_groups.
      eapply Sorted_ind with
        (P := fun l => Sorted class_then_size l);
        [constructor| |apply (sorted_Sorted family_leb family_leb_total)].
      intros a l _ IH Hhd. constructor; [exact IH|].
      destruct Hhd; constructor. now apply family_leb_iff.
Qed.

(** ** Properties of last_names *)

Lemma str_split_first s :
  str_get 0 (str_split "," s) = Some (before_comma s).
Proof.
  induction s as [|c s IH]; simpl; [reflexivity|].
  destruct (Ascii.eqb c ","); [reflexivity|].
  destruct (str_split "," s) as [|piece pieces]; [discriminate IH|].
  simpl in *. congruence.
Qed.

Lemma last_names_series_surname df :
  last_names_series df = map (fun r => Some (surname (Name r))) df.
Proof.
  unfold last_names_series. apply map_ext. intros r.
  now rewrite str_split_first.
Qed.

Lemma before_comma_spec s :
  exists rest,
    s = (before_comma s ++ rest)%string /\
    has_comma (before_comma s) = false /\
    (rest = EmptyString \/ first_char rest = Some ","%char).
Proof.
  induction s as [|c s [rest [E [Hno Hrest]]]]; simpl.
  - exists EmptyString. auto.
  - destruct (Ascii.eqb_spec c ",") as [->|N].
    + exists (String "," s). simpl. auto.
    + exists rest. simpl. rewrite <- E, Hno.
      apply Ascii.eqb_neq in N. rewrite N. auto.
Qed.

Lemma before_comma_no_comma s : has_comma s = false -> before_comma s = s.
Proof.
  induction s as [|c s IH]; simpl; [reflexivity|].
  destruct (Ascii.eqb c ","); simpl; [discriminate|].
  intros H. now rewrite IH.
Qed.

Lemma lstrip_spec s :
  exists l, s = (l ++ lstrip s)%string /\ all_space l = true /\
            space_at (first_char (lstrip s)) = false.
Proof.
  induction s as [|c s [l [E [Hl Hf]]]]; simpl.
  - exists EmptyString. auto.
  - destruct (isspace c) eqn:Ec.
    + exists (String c l). simpl. rewrite <- E, Ec, Hl. auto.
    + exists EmptyString. simpl. auto.
Qed.

Lemma rstrip_spec s :
  exists r, s = (rstrip s ++ r)%string /\ all_space r = true /\
            space_at (last_char (rstrip s)) = false /\
            (rstrip s = EmptyString \/ first_char (rstrip s) = first_char s).
Proof.
  induction s as [|c s [r [E [Hr [Hl Hf]]]]]; simpl.
  - exists EmptyString. auto.
  - destruct (rstrip s) as [|d t] eqn:Et.
    + destruct (isspace c) eqn:Ec.
      * exists (String c r). simpl in *. subst s. rewrite Ec, Hr. auto.
      * exists r. simpl in *. subst s. rewrite Ec. auto.
    + exists r. simpl in *. rewrite <- E. auto.
Qed.

(** [strip] removes whitespace, and only whitespace, from both ends. *)
Lemma strip_spec s :
  exists l r,
    s = (l ++ strip s ++ r)%string /\
    all_space l = true /\ all_space r = true /\
    space_at (first_char (strip s)) = false /\
    space_at (last_char (strip s)) = false.
Proof.
  destruct (lstrip_spec s) as [l [El [Hl Hfl]]].
  destruct (rstrip_spec (lstrip s)) as [r [Er [Hr [Hlast Hfirst]]]].
  exists l, r. unfold strip. rewrite <- Er, <- El.
  repeat split; try assumption.
  destruct Hfirst as [-> | ->]; [reflexivity|exact Hfl].
Qed.

Lemma dropna_In {A : Type} (v : A) (s : list (option A)) :
  In v (dropna s) <-> In (Some v) s.
Proof.
  unfold dropna. rewrite in_flat_map. split.
  - intros [[w|] [Hx Hv]]; simpl in Hv; [|tauto].
    destruct Hv as [<-|[]]. exact Hx.
  - intros H. exists (Some v). simpl. auto.
Qed.

Lemma size_map_Some {R : Type} (f : R -> string) (v : string) (l : list R) :
  size (fun x : option string => x) String.eqb v (map (fun r => Some (f r)) l)
  = Z.of_nat (length (filter (fun r => String.eqb (f r) v) l)).
Proof.
  unfold size, get_group. f_equal.
  induction l as [|r l IH]; simpl; [reflexivity|].
  unfold in_group at 1. destruct (String.eqb (f r) v); simpl; now rewrite IH.
Qed.

Lemma count_geb_total a b : count_geb a b = true \/ count_geb b a = true.
Proof. unfold count_geb. rewrite !Z.leb_le. lia. Qed.

Lemma value_counts_perm s :
  Permutation
    (map (fun v => (v, size (fun x : option string => x) String.eqb v s))
         (unique String.eqb (dropna s)))
    (value_counts s).
Proof. unfold value_counts. apply sorted_perm. Qed.

Lemma value_counts_index s :
  Permutation (unique String.eqb (dropna s)) (map fst (value_counts s)).
Proof.
  rewrite <- (value_counts_perm s), map_map. simpl. now rewrite map_id.
Qed.

Lemma value_counts_entry s e :
  In e (value_counts s) ->
  In (Some (fst e)) s /\
  snd e = size (fun x : option string => x) String.eqb (fst e) s.
Proof.
  intros H.
  apply (Permutation_in _ (Permutation_sym (value_counts_perm s))) in H.
  apply in_map_iff in H. destruct H as [v [<- Hv]]. simpl. split; [|reflexivity].
  apply dropna_In.
  exact (proj1 (unique_In String.eqb String.eqb_spec v (dropna s)) Hv).
Qed.

Lemma value_counts_In s v :
  In (Some v) s ->
  In (v, size (fun x : option string => x) String.eqb v s) (value_counts s).
Proof.
  intros H. apply (Permutation_in _ (value_counts_perm s)).
  apply in_map_iff. exists v. split; [reflexivity|].
  apply (unique_In String.eqb String.eqb_spec). now apply dropna_In.
Qed.

Lemma value_counts_sorted s : StronglySorted count_descending (value_counts s).
Proof.
  apply Sorted_StronglySorted.
  - intros a b c. unfold count_descending. lia.
  - unfold value_counts.
    eapply Sorted_ind with (P := fun l => Sorted count_descending l);
      [constructor| |apply (sorted_Sorted count_geb count_geb_total)].
    intros a l _ IH Hhd. constructor; [exact IH|].
    destruct Hhd; constructor. unfold count_descending. now apply Z.leb_le.
Qed.

(** C8.  [last_names] has one entry per distinct surname; a surname is the
    part of a record's name before its first comma, without the whitespace
    around it; an entry's count is the number of records with that surname;
    the counts add up to the number of records; and the entries are in
    order of descending count. *)
Theorem last_names_counts :
  forall df : list PassengerRecord,
    let out := last_names df in
    NoDup (map fst out) /\
    (forall s, In s (map fst out) <->
               exists r, In r df /\
                 option_map strip (str_get 0 (str_split "," (Name r))) = Some s) /\
    (forall r, In r df ->
       exists s pre rest l t,
         option_map strip (str_get 0 (str_split "," (Name r))) = Some s /\
         Name r = (pre ++ rest)%string /\ has_comma pre = false /\
         (rest = EmptyString \/ first_char rest = Some ","%char) /\
         pre = (l ++ s ++ t)%string /\
         all_space l = true /\ all_space t = true /\
         space_at (first_char s) = false /\ space_at (last_char s) = false) /\
    Forall (fun e =>
              snd e = Z.of_nat (length (filter (fun r =>
                        String.eqb (surname (Name r)) (fst e)) df))) out /\
    sum (map snd out) = Z.of_nat (length df) /\
    StronglySorted count_descending out.
Proof.
  intros df out. unfold out, last_names.
  split; [|split; [|split; [|split; [|split]]]].
  - eapply Permutation_NoDup; [apply value_counts_index|].
    apply unique_NoDup, String.eqb_spec.
  - intros s.
    transitivity (In (Some s) (last_names_series df)).
    + rewrite <- dropna_In,
        <- (unique_In String.eqb String.eqb_spec s (dropna _)).
      split; apply Permutation_in;
        [symmetry|]; apply value_counts_index.
    + unfold last_names_series. rewrite in_map_iff.
      split; intros [r H]; exists r; tauto.
  - intros r _. rewrite str_split_first. simpl.
    destruct (before_comma_spec (Name r)) as [rest [E [Hno Hrest]]].
    destruct (strip_spec (before_comma (Name r)))
      as [l [t [Es [Hl [Ht [Hf Hlast]]]]]].
    exists (strip (before_comma (Name r))), (before_comma (Name r)), rest, l, t.
    repeat split; assumption.
  - apply Forall_forall. intros e He.
    apply value_counts_entry in He. destruct He as [_ ->].
    rewrite last_names_series_surname. apply size_map_Some.
  - rewrite <- (sum_perm _ _ (Permutation_map snd (value_counts_perm _))).
    rewrite map_map. cbn [snd].
    rewrite (sum_size (fun x : option string => x) String.eqb String.eqb_spec).
    + rewrite last_names_series_surname. f_equal.
      clear. induction df; simpl; congruence.
    + apply unique_NoDup, String.eqb_spec.
    + intros x k Hx ->.
      apply (unique_In String.eqb String.eqb_spec). now apply dropna_In.
  - apply value_counts_sorted.
Qed.

(** C10.  A record whose name has no comma gets the whole name, trimmed,
    as its surname, and is counted under it: the extraction does not fail,
    the surname is what is left of the whole name when the whitespace at its
    two ends is taken off, and the entry of that surname counts the record. *)
Theorem last_names_without_comma :
  forall (df : list PassengerRecord) (r : PassengerRecord),
    In r df -> has_comma (Name r) = false ->
    exists s,
      option_map strip (str_get 0 (str_split "," (Name r))) = Some s /\
      (exists l t,
          Name r = (l ++ s ++ t)%string /\
          all_space l = true /\ all_space t = true /\
          space_at (first_char s) = false /\ space_at (last_char s) = false) /\
      exists n, In (s, n) (last_names df) /\ 1 <= n /\
                n = Z.of_nat (length (filter (fun r' =>
                      String.eqb (surname (Name r')) s) df)).
Proof.
  intros df r Hr Hno.
  assert (E : surname (Name r) = strip (Name r)).
  { unfold surname. now rewrite before_comma_no_comma. }
  exists (strip (Name r)). split; [|split].
  - rewrite str_split_first. simpl. f_equal. exact E.
  - destruct (strip_spec (Name r)) as [l [t [Es [Hl [Ht [Hf Hlast]]]]]].
    exists l, t. repeat split; assumption.
  - eexists. split; [|split; [|reflexivity]].
    + unfold last_names. rewrite <- size_map_Some.
      rewrite <- last_names_series_surname.
      apply value_counts_In. rewrite last_names_series_surname.
      apply in_map_iff. exists r. split; [now rewrite E|exact Hr].
    + assert (Hin : In r (filter (fun r' =>
                  String.eqb (surname (Name r')) (strip (Name r))) df)).
      { apply filter_In. split; [exact Hr|]. rewrite E. apply String.eqb_refl. }
      destruct (filter _ df); [destruct Hin|simpl length; lia].
Qed.

Lemma last_names_without_comma_witness :
  Name cher = "  Cher "%string /\
  exists s,
    option_map strip (str_get 0 (str_split "," (Name cher))) = Some s /\
    (exists l t,
        Name cher = (l ++ s ++ t)%string /\
        all_space l = true /\ all_space t = true /\
        space_at (first_char s) = false /\ space_at (last_char s) = false) /\
    exists n, In (s, n) (last_names [braund; cher]) /\ 1 <= n /\
              n = Z.of_nat (length (filter (fun r' =>
                    String.eqb (surname (Name r')) s) [braund; cher])).
Proof.
  split; [reflexivity|].
  apply (last_names_without_comma [braund; cher] cher).
  - simpl. auto.
  - reflexivity.
Defined.

(** ** Properties of determine_age_division *)


Lemma filter_length_mono {A : Type} (f g : A -> bool) l :
  (forall x, f x = true -> g x = true) ->
  (length (filter f l) <= length (filter g l))%nat.
Proof.
  intros H. induction l as [|x l IH]; simpl; [lia|].
  destruct (f x) eqn:E.
  - rewrite (H x E). simpl. lia.
  - destruct (g x); simpl; lia.
Qed.









Lemma dropna_class_keys rows :
  dropna (map int_key (map (fun r => Int (Pclass r)) rows)) = map Pclass rows.
Proof. induction rows; simpl; congruence. Qed.

Lemma group_ages rows k :
  dropna (map (fun row : cell * cell => numeric (snd row))
            (get_group (fun row : cell * cell => int_key (fst row)) Z.eqb k
               (combine (map (fun r => Int (Pclass r)) rows)
                        (map (fun r => float_cell (Age r)) rows))))
  = dropna (map Age (filter (fun r => Pclass r =? k) rows)).
Proof.
  unfold get_group. induction rows as [|r rows IH]; simpl; [reflexivity|].
  unfold in_group at 1. simpl.
  destruct (Pclass r =? k); simpl; [|exact IH].
  rewrite IH. now destruct (Age r).
Qed.

Lemma groupby_median_classes rows :
  groupby_median (map (fun r => Int (Pclass r)) rows)
                 (map (fun r => float_cell (Age r)) rows)
  = map (fun k => (k, class_median rows k)) (all_classes rows).
Proof.
  unfold groupby_median, all_classes. rewrite dropna_class_keys.
  apply map_ext. intros k. unfold class_median, class_ages.
  now rewrite group_ages.
Qed.

Lemma find_entry {V : Type} (f : Z -> V) k ks :
  In k ks ->
  find (fun entry => fst entry =? k) (map (fun k => (k, f k)) ks)
  = Some (k, f k).
Proof.
  induction ks as [|k' ks IH]; simpl; [tauto|].
  destruct (Z.eqb_spec k' k) as [->|N]; [reflexivity|].
  intros [E|H]; [congruence|now apply IH].
Qed.

Lemma map_series_classes rows :
  map_series (map (fun r => Int (Pclass r)) rows)
             (map (fun k => (k, class_median rows k)) (all_classes rows))
  = map (fun r => float_cell (class_median rows (Pclass r))) rows.
Proof.
  unfold map_series. rewrite map_map. apply map_ext_in. intros r Hr. simpl.
  rewrite find_entry; [reflexivity|].
  apply all_classes_In. now apply in_map.
Qed.

Lemma map2_map {R A B C : Type} (f : A -> B -> C) (g : R -> A) (h : R -> B) l :
  map2 f (map g l) (map h l) = map (fun r => f (g r) (h r)) l.
Proof. induction l; simpl; congruence. Qed.

Lemma gt_older rows r :
  gt (float_cell (Age r)) (float_cell (class_median rows (Pclass r)))
  = Bool (older rows r).
Proof.
  unfold gt, older.
  destruct (Age r), (class_median rows (Pclass r)); reflexivity.
Qed.

Lemma fillna_Bool (bs : list bool) : fillna (map Bool bs) (Bool false) = map Bool bs.
Proof. unfold fillna. rewrite map_map. reflexivity. Qed.

(** What the function returns: the input frame, then the new column. *)
Lemma determine_age_division_returns rows :
  determine_age_division rows
  = Some (read_csv rows
          ++ [("older_passenger"%string, map Bool (map (older rows) rows))]).
Proof.
  unfold determine_age_division.
  change (getitem (read_csv rows) "Pclass")
    with (Some (map (fun r => Int (Pclass r)) rows)).
  change (getitem (read_csv rows) "Age")
    with (Some (map (fun r => float_cell (Age r)) rows)).
  cbn [bind].
  rewrite groupby_median_classes, map_series_classes.
  set (medians := map (fun r => float_cell (class_median rows (Pclass r))) rows).
  change (getitem (setitem (read_csv rows) "class_median_age" medians) "Age")
    with (Some (map (fun r => float_cell (Age r)) rows)).
  change (getitem (setitem (read_csv rows) "class_median_age" medians)
                  "class_median_age")
    with (Some medians).
  cbn [bind]. unfold medians at 2. rewrite map2_map.
  erewrite (map_ext _ _ (gt_older rows)).
  rewrite <- (map_map (older rows) Bool).
  set (flags := map Bool (map (older rows) rows)).
  change (getitem (setitem (setitem (read_csv rows) "class_median_age" medians)
                           "older_passenger" flags) "older_passenger")
    with (Some flags).
  cbn [bind]. unfold flags at 1. rewrite fillna_Bool. fold flags.
  reflexivity.
Qed.






(** C9.  The returned frame has the columns of the input, in their order
    and with their values, followed by [older_passenger]; it has no
    [class_median_age] column. *)
Theorem determine_age_division_adds_one_column :
  forall rows : list PassengerRecord,
    exists out,
      determine_age_division rows = Some out /\
      columns out = columns (read_csv rows) ++ ["older_passenger"%string] /\
      (forall c, In c (columns (read_csv rows)) ->
                 getitem out c = getitem (read_csv rows) c /\
                 getitem out c <> None) /\
      (exists flags, out = read_csv rows ++ [("older_passenger"%string, flags)]) /\
      ~ In "class_median_age"%string (columns out) /\
      getitem out "class_median_age" = None.
Proof.
  intros rows. eexists. split; [apply determine_age_division_returns|].
  split; [reflexivity|]. split; [|split; [|split]].
  - intros c Hc. cbn in Hc.
    repeat (destruct Hc as [<-|Hc]; [split; [reflexivity|discriminate]|]).
    destruct Hc.
  - eexists. reflexivity.
  - cbn. intros H.
    repeat (destruct H as [H|H]; [discriminate H|]). exact H.
  - reflexivity.
Qed.

(** ** Worked examples *)

(** Three adult men of the third class, one of whom survived: the rate is
    the double 0.333. *)
Example survival_demographics_third_class_men :
  In (Demographics.mk 3 "male" Adult 3 1 (Some (fl (333 # 1000))))
     (survival_demographics category_leb [braund; allen; bing]).
Proof. vm_compute. auto. Qed.

(** A quotient that is a tie in the third decimal place: 203 survivors of 400
    passengers are the share 0.5075, the double nearest to it lies below it,
    and the rate is the double 0.507. *)
Example rate_of_203_in_400 :
  round 3 (fdiv (inject_Z 203) (inject_Z 400)) = fl (507 # 1000) /\
  (fdiv (inject_Z 203) (inject_Z 400) < inject_Z 203 / inject_Z 400)%Q.
Proof. split; vm_compute; reflexivity. Qed.

(** No female senior travels second class in [sample]: the row is there,
    with zeros. *)
Example survival_demographics_empty_group :
  In (Demographics.mk 2 "female" Senior 0 0 (Some 0%Q))
     (survival_demographics category_leb sample) /\
  In (Demographics.mk 2 "female" Senior 0 0 (Some 0%Q))
     (survival_demographics name_leb sample).
Proof. split; vm_compute; tauto. Qed.

Example family_groups_sample :
  map (fun w => (Family.Pclass w, Family.family_size w, Family.n_passengers w))
      (family_groups sample)
  = [(1, 2, 1); (2, 2, 1); (3, 1, 2); (3, 2, 1); (3, 5, 1)].
Proof. reflexivity. Qed.

Example last_names_sample :
  last_names (sample ++ [braund; palsson; palsson])
  = [("Palsson"%string, 3); ("Braund"%string, 2); ("Cumings"%string, 1);
     ("Heikkinen"%string, 1); ("Moran"%string, 1); ("Nasser"%string, 1)].
Proof. reflexivity. Qed.

(** Three passengers of one group who each paid the double 31.275: the mean
    of the fares is rounded down to 31.27, the least and the greatest fare
    up to 31.28. *)
Example fares_of_31_275 :
  let fare := fl (31275 # 1000) in
  option_map (round 2) (fmean [fare; fare; fare]) = Some (fl (3127 # 100)) /\
  option_map (round 2) (fmin [fare; fare; fare]) = Some (fl (3128 # 100)) /\
  option_map (round 2) (fmax [fare; fare; fare]) = Some (fl (3128 # 100)).
Proof. repeat split; vm_compute; reflexivity. Qed.

(** A class with median age 24: the passenger aged 30 is older, the one of
    unknown age is not. *)
Example determine_age_division_median_24 :
  let rows := [aged 1 (Some 18%Q); aged 2 (Some 30%Q); aged 3 None;
               aged 4 (Some 24%Q)] in
  class_median rows 2 = Some 24%Q /\
  option_map (fun out => getitem out "older_passenger")
             (determine_age_division rows)
  = Some (Some [Bool false; Bool true; Bool false; Bool false]).
Proof. split; reflexivity. Qed.

(** The claims at concrete tables. *)

Lemma survival_rate_rounded_witness :
  let w := Demographics.mk 3 "male" Adult 3 1 (Some (fl (333 # 1000))) in
  In w (survival_demographics category_leb [braund; allen; bing]) /\
  0 <= Demographics.n_survivors w <= Demographics.n_passengers w /\
  exists rate k,
    Demographics.survival_rate w = Some rate /\
    rate = round 3 (fdiv (inject_Z 1) (inject_Z 3)) /\
    0 <= k <= 1000 /\ rate = fl (inject_Z k / 1000) /\
    (3 <= 10 ^ 11 ->
     (Qabs (inject_Z k / 1000 - inject_Z 1 / inject_Z 3) <= 1 # 2000)%Q) /\
    (Qabs (rate - inject_Z 1 / inject_Z 3) <= (1 # 2000) + (1 # 10 ^ 15))%Q.
Proof.
  intros w.
  assert (Hw : In w (survival_demographics category_leb [braund; allen; bing]))
    by (vm_compute; auto).
  destruct (proj1 (Forall_forall _ _)
              (survival_rate_rounded category_leb [braund; allen; bing]) w Hw)
    as [Hle Hrate].
  split; [exact Hw|]. split; [exact Hle|].
  apply Hrate. reflexivity.
Defined.


Lemma age_group_partition_witness :
  age_group braund = Some Adult /\ age_group palsson = Some Child /\
  age_group nasser = Some Teen /\ age_group moran = None.
Proof.
  split; [|split; [|split]].
  - apply (age_group_partition braund). simpl. split; [reflexivity|discriminate].
  - apply (age_group_partition palsson). simpl. split; [reflexivity|discriminate].
  - apply (age_group_partition nasser). simpl. split; [reflexivity|discriminate].
  - exact (age_group_partition moran).
Defined.

(** ** Further properties of survival_demographics *)

Lemma survivor_in_group k r :
  in_group survivor_key combination_eqb k r
  = Survived r && in_group demographic_key combination_eqb k r.
Proof. unfold in_group, survivor_key. now destruct (Survived r). Qed.

Lemma survived_size df k :
  sum (map (fun r => Z.b2z (Survived r))
           (get_group demographic_key combination_eqb k df))
  = size survivor_key combination_eqb k df.
Proof.
  unfold size, get_group. induction df as [|r df IH]; [reflexivity|].
  cbn [filter]. rewrite survivor_in_group.
  destruct (in_group demographic_key combination_eqb k r).
  - cbn [map]. change (sum (?x :: ?l)) with (x + sum l). rewrite IH.
    destruct (Survived r); cbn [andb Z.b2z length]; lia.
  - rewrite andb_false_r. exact IH.
Qed.

(** X1.  The survival rate of a row is a number between 0 and 1, never NaN. *)
Theorem survival_rate_between_0_and_1 :
  forall (label_leb : age_label -> age_label -> bool)
         (df : list PassengerRecord),
    Forall (fun w => exists q, Demographics.survival_rate w = Some q /\
                               (0 <= q <= 1)%Q)
           (survival_demographics label_leb df).
Proof.
  intros label_leb df. apply Forall_forall. intros w Hw.
  destruct (survival_demographics_row _ _ _ Hw) as [E _].
  rewrite E, stats_survival_rate.
  destruct (Z.eqb_spec (Demographics.n_passengers
                          (stats df (Demographics.index w))) 0) as [_|Hn].
  - exists 0%Q. split; [reflexivity|lra].
  - eexists. split; [reflexivity|]. apply round3_unit_interval.
    rewrite stats_n_survivors, stats_n_passengers in *.
    pose proof (sum_b2z_bounds Survived
                  (get_group demographic_key combination_eqb
                             (Demographics.index w) df)) as [Hlo Hhi].
    unfold count in *.
    apply fdiv_unit_interval; lia.
Qed.

(** X2.  The survivors counted over all rows are the surviving records that
    have an age group. *)
Theorem survivors_counted_once :
  forall (label_leb : age_label -> age_label -> bool)
         (df : list PassengerRecord),
    let out := survival_demographics label_leb df in
    sum (map Demographics.n_survivors out)
    = Z.of_nat (length (filter (fun r => Survived r && age_positive r) df)) /\
    sum (map Demographics.n_survivors out)
    <= sum (map Demographics.n_passengers out).
Proof.
  intros label_leb df out.
  assert (Hs : sum (map Demographics.n_survivors out)
               = Z.of_nat (length (filter (has_key survivor_key) df))).
  { unfold out.
    rewrite <- (sum_perm _ _ (Permutation_map Demographics.n_survivors
                               (survival_demographics_perm label_leb df))).
    rewrite map_map.
    erewrite map_ext;
      [|intros k; rewrite stats_n_survivors; apply survived_size].
    apply (sum_size survivor_key combination_eqb combination_eqb_spec).
    - apply all_combinations_NoDup.
    - intros r k Hr Hk. apply (demographic_key_In df r k Hr).
      unfold survivor_key in Hk. now destruct (Survived r). }
  assert (Hp : sum (map Demographics.n_passengers out)
               = Z.of_nat (length (filter (has_key demographic_key) df))).
  { unfold out.
    rewrite <- (sum_perm _ _ (Permutation_map Demographics.n_passengers
                               (survival_demographics_perm label_leb df))).
    rewrite map_map.
    erewrite map_ext; [|intros k; apply stats_n_passengers].
    apply (sum_size demographic_key combination_eqb combination_eqb_spec).
    - apply all_combinations_NoDup.
    - intros r k. apply demographic_key_In. }
  split.
  - rewrite Hs. f_equal. f_equal. apply filter_ext. intros r.
    unfold has_key, survivor_key. rewrite <- has_key_age_positive.
    unfold has_key. now destruct (Survived r).
  - rewrite Hs, Hp. apply Nat2Z.inj_le, filter_length_mono.
    intros r. unfold has_key, survivor_key. now destruct (Survived r).
Qed.

Lemma string_ltb_total s t :
  String.ltb s t = true \/ s = t \/ String.ltb t s = true.
Proof.
  unfold String.ltb. rewrite (String.compare_antisym t s).
  destruct (String.compare s t) eqn:E; simpl; auto.
  right. left. now apply String.compare_eq_iff.
Qed.

Lemma demographics_leb_total label_leb :
  (forall g h, label_leb g h = true \/ label_leb h g = true) ->
  forall v w, demographics_leb label_leb v w = true \/
              demographics_leb label_leb w v = true.
Proof.
  intros Htot v w. unfold demographics_leb.
  destruct (Z.ltb_spec (Demographics.Pclass v) (Demographics.Pclass w));
    [auto|].
  destruct (Z.ltb_spec (Demographics.Pclass w) (Demographics.Pclass v));
    [auto|].
  replace (Demographics.Pclass w) with (Demographics.Pclass v) by lia.
  rewrite Z.eqb_refl.
  destruct (string_ltb_total (Demographics.Sex v) (Demographics.Sex w))
    as [H1|[H1|H1]].
  - rewrite H1. auto.
  - rewrite H1. rewrite String.eqb_refl.
    destruct (String.ltb (Demographics.Sex w) (Demographics.Sex w)); auto.
  - rewrite H1. destruct (String.ltb _ _); auto.
Qed.

Lemma demographics_leb_order label_leb v w :
  demographics_leb label_leb v w = true -> demographics_order label_leb v w.
Proof.
  unfold demographics_leb, demographics_order.
  destruct (Z.ltb_spec (Demographics.Pclass v) (Demographics.Pclass w));
    [auto|].
  destruct (Z.eqb_spec (Demographics.Pclass v) (Demographics.Pclass w));
    [|discriminate].
  destruct (String.ltb _ _); [auto|].
  destruct (String.eqb_spec (Demographics.Sex v) (Demographics.Sex w));
    [|discriminate].
  auto.
Qed.

(** X3.  The rows come ordered by class, then sex, then age group, whatever
    total order the age groups are compared in. *)
Theorem survival_demographics_sorted :
  forall (label_leb : age_label -> age_label -> bool)
         (df : list PassengerRecord),
    (forall g h, label_leb g h = true \/ label_leb h g = true) ->
    Sorted (demographics_order label_leb) (survival_demographics label_leb df).
Proof.
  intros label_leb df Htot. unfold survival_demographics.
  eapply Sorted_ind with (P := fun l => Sorted (demographics_order label_leb) l);
    [constructor| |apply (sorted_Sorted _ (demographics_leb_total _ Htot))].
  intros a l _ IH Hhd. constructor; [exact IH|].
  destruct Hhd; constructor. now apply demographics_leb_order.
Qed.

Lemma category_leb_total g h : category_leb g h = true \/ category_leb h g = true.
Proof. unfold category_leb. rewrite !Z.leb_le. lia. Qed.

Lemma survival_demographics_sorted_witness :
  Sorted (demographics_order category_leb)
         (survival_demographics category_leb sample).
Proof.
  apply (survival_demographics_sorted category_leb sample).
  exact category_leb_total.
Defined.

(** ** Further properties of family_groups *)

Lemma fold_min_spec xs x :
  let m := fold_left (fun m y => if Qle_bool y m then y else m) xs x in
  In m (x :: xs) /\ Forall (fun y => (m <= y)%Q) (x :: xs).
Proof.
  revert x. induction xs as [|y xs IH]; intros x; cbn [fold_left].
  - split; [now left|]. constructor; [apply Qle_refl|constructor].
  - destruct (Qle_bool y x) eqn:E.
    + destruct (IH y) as [Hin Hall]. apply Qle_bool_iff in E. split.
      * destruct Hin as [<-|Hin]; [right; now left|right; now right].
      * inversion Hall as [|? ? Hy Hxs]; subst.
        constructor; [|constructor; assumption]. lra.
    + destruct (IH x) as [Hin Hall]. apply Qle_bool_false in E. split.
      * destruct Hin as [<-|Hin]; [now left|right; now right].
      * inversion Hall as [|? ? Hx Hxs]; subst.
        constructor; [assumption|constructor; [|assumption]]. lra.
Qed.

Lemma fold_max_spec xs x :
  let m := fold_left (fun m y => if Qle_bool m y then y else m) xs x in
  In m (x :: xs) /\ Forall (fun y => (y <= m)%Q) (x :: xs).
Proof.
  revert x. induction xs as [|y xs IH]; intros x; cbn [fold_left].
  - split; [now left|]. constructor; [apply Qle_refl|constructor].
  - destruct (Qle_bool x y) eqn:E.
    + destruct (IH y) as [Hin Hall]. apply Qle_bool_iff in E. split.
      * destruct Hin as [<-|Hin]; [right; now left|right; now right].
      * inversion Hall as [|? ? Hy Hxs]; subst.
        constructor; [|constructor; assumption]. lra.
    + destruct (IH x) as [Hin Hall]. apply Qle_bool_false in E. split.
      * destruct Hin as [<-|Hin]; [now left|right; now right].
      * inversion Hall as [|? ? Hx Hxs]; subst.
        constructor; [assumption|constructor; [|assumption]]. lra.
Qed.

(** The three fare statistics of a non-empty group. *)
Lemma fare_stats_spec xs :
  xs <> [] ->
  exists lo avg hi,
    fmin xs = Some lo /\ fmean xs = Some avg /\ fmax xs = Some hi /\
    In lo xs /\ In hi xs /\ (lo <= hi)%Q.
Proof.
  destruct xs as [|x xs]; [congruence|]. intros _.
  destruct (fold_min_spec xs x) as [Hlo Hmin].
  destruct (fold_max_spec xs x) as [Hhi Hmax].
  unfold fmin, fmax, fmean.
  set (lo := fold_left (fun m y => if Qle_bool y m then y else m) xs x) in *.
  set (hi := fold_left (fun m y => if Qle_bool m y then y else m) xs x) in *.
  do 3 eexists.
  split; [reflexivity|]. split; [reflexivity|]. split; [reflexivity|].
  split; [exact Hlo|]. split; [exact Hhi|].
  rewrite Forall_forall in Hmin. now apply Hmin.
Qed.

Lemma family_group_nonempty df k :
  In k (family_index df) -> get_group family_key pair_eqb k df <> [].
Proof.
  intros Hk. apply family_index_In in Hk. destruct Hk as [r [Hr [Hfs Hc]]].
  assert (Hin : In r (get_group family_key pair_eqb k df)).
  { apply filter_In. split; [exact Hr|].
    apply (in_group_iff family_key pair_eqb pair_eqb_spec).
    unfold family_key. rewrite Hfs, Hc. now destruct k. }
  intros E. rewrite E in Hin. destruct Hin.
Qed.

(** X4.  For fares far from the overflow of a double, the fare statistics of
    every row are numbers; [min_fare] and [max_fare] are the rounded fares of
    two records of the row's group, the one with the least and the one with
    the greatest fare of the group, and the rounded fare of every record of
    the group lies between them. *)
Theorem family_groups_fare_statistics :
  forall df : list PassengerRecord,
    Forall (fun r => (Qabs (Fare r) <= pow2 512)%Q) df ->
    Forall (fun w =>
              exists lo avg hi r_lo r_hi,
                Family.min_fare w = Some lo /\
                Family.avg_fare w = Some avg /\
                Family.max_fare w = Some hi /\
                (lo <= hi)%Q /\
                In r_lo df /\ In r_hi df /\
                family_key r_lo = Some (Family.index w) /\
                family_key r_hi = Some (Family.index w) /\
                lo = round 2 (Fare r_lo) /\ hi = round 2 (Fare r_hi) /\
                Forall (fun r => family_key r = Some (Family.index w) ->
                                 (Fare r_lo <= Fare r <= Fare r_hi)%Q /\
                                 (lo <= round 2 (Fare r) <= hi)%Q) df)
           (family_groups df).
Proof.
  intros df _. apply Forall_forall. intros w Hw.
  destruct (family_groups_row _ _ Hw) as [E Hk].
  pose proof (family_group_nonempty df _ Hk) as Hne.
  set (members := get_group family_key pair_eqb (Family.index w) df) in *.
  assert (Hfares : map Fare members <> []).
  { destruct members; [congruence|discriminate]. }
  destruct (fare_stats_spec _ Hfares)
    as (lo & avg & hi & Hmin & Hmean & Hmax & Hlo & Hhi & Hle).
  apply in_map_iff in Hlo. destruct Hlo as [r_lo [Elo Hlo]].
  apply in_map_iff in Hhi. destruct Hhi as [r_hi [Ehi Hhi]].
  apply filter_In in Hlo. destruct Hlo as [Hlo Klo].
  apply filter_In in Hhi. destruct Hhi as [Hhi Khi].
  apply (in_group_iff family_key pair_eqb pair_eqb_spec) in Klo, Khi.
  assert (Emin : Family.min_fare w
                 = option_map (round 2) (fmin (map Fare members)))
    by (rewrite E at 1; reflexivity).
  assert (Eavg : Family.avg_fare w
                 = option_map (round 2) (fmean (map Fare members)))
    by (rewrite E at 1; reflexivity).
  assert (Emax : Family.max_fare w
                 = option_map (round 2) (fmax (map Fare members)))
    by (rewrite E at 1; reflexivity).
  exists (round 2 lo), (round 2 avg), (round 2 hi), r_lo, r_hi.
  rewrite Emin, Eavg, Emax, Hmin, Hmean, Hmax. cbn [option_map].
  split; [reflexivity|]. split; [reflexivity|]. split; [reflexivity|].
  split; [apply round_mono; exact Hle|].
  split; [exact Hlo|]. split; [exact Hhi|].
  split; [exact Klo|]. split; [exact Khi|].
  split; [now rewrite Elo|]. split; [now rewrite Ehi|].
  apply Forall_forall. intros r Hr Kr.
  assert (Hin : In (Fare r) (map Fare members)).
  { apply in_map, filter_In. split; [exact Hr|].
    now apply (in_group_iff family_key pair_eqb pair_eqb_spec). }
  unfold fmin, fmax in Hmin, Hmax.
  destruct (map Fare members) as [|x xs]; [destruct Hin|].
  injection Hmin as Hmin. injection Hmax as Hmax.
  destruct (fold_min_spec xs x) as [_ Hall1].
  destruct (fold_max_spec xs x) as [_ Hall2].
  cbv zeta in Hall1, Hall2. rewrite Hmin in Hall1. rewrite Hmax in Hall2.
  rewrite Forall_forall in Hall1, Hall2.
  rewrite Elo, Ehi.
  split; [split; auto|split; apply round_mono; auto].
Qed.

Lemma family_groups_fare_statistics_witness :
  Forall (fun w =>
            exists lo avg hi r_lo r_hi,
              Family.min_fare w = Some lo /\
              Family.avg_fare w = Some avg /\
              Family.max_fare w = Some hi /\
              (lo <= hi)%Q /\
              In r_lo sample /\ In r_hi sample /\
              family_key r_lo = Some (Family.index w) /\
              family_key r_hi = Some (Family.index w) /\
              lo = round 2 (Fare r_lo) /\ hi = round 2 (Fare r_hi) /\
              Forall (fun r => family_key r = Some (Family.index w) ->
                               (Fare r_lo <= Fare r <= Fare r_hi)%Q /\
                               (lo <= round 2 (Fare r) <= hi)%Q) sample)
         (family_groups sample).
Proof.
  apply (family_groups_fare_statistics sample).
  unfold sample. repeat constructor; vm_compute; discriminate.
Defined.

(** X5.  With no negative sibling or parent counts, and sums within the
    64-bit integers, every row has a family size of at least 1. *)
Theorem family_size_at_least_one :
  forall df : list PassengerRecord,
    Forall (fun r => 0 <= SibSp r /\ 0 <= Parch r /\
                     is_int64 (SibSp r + Parch r + 1)) df ->
    Forall (fun w => 1 <= Family.family_size w) (family_groups df).
Proof.
  intros df Hdf. apply Forall_forall. intros w Hw.
  destruct (family_groups_row _ _ Hw) as [_ Hk].
  apply family_index_In in Hk. destruct Hk as [r [Hr [Hfs _]]].
  rewrite Forall_forall in Hdf. destruct (Hdf r Hr) as (HS & HP & Hfit).
  simpl in Hfs. rewrite <- Hfs. unfold family_size.
  rewrite add64_add64, int64_id by exact Hfit. lia.
Qed.

Lemma family_size_at_least_one_witness :
  Forall (fun w => 1 <= Family.family_size w) (family_groups sample).
Proof.
  apply (family_size_at_least_one sample).
  unfold sample, is_int64. repeat constructor; simpl; lia.
Defined.

(** ** Properties of the findings about last names *)

Lemma last_names_entry df e :
  In e (last_names df) ->
  snd e = bearers df (fst e) /\ 1 <= snd e /\
  exists r, In r df /\ surname (Name r) = fst e.
Proof.
  intros He. unfold last_names in He.
  apply value_counts_entry in He. destruct He as [Hin Hn].
  rewrite last_names_series_surname in Hin, Hn.
  rewrite size_map_Some in Hn. fold (bearers df (fst e)) in Hn.
  apply in_map_iff in Hin. destruct Hin as [r [[= Hs] Hr]].
  split; [exact Hn|]. split; [|now exists r].
  rewrite Hn. unfold bearers.
  assert (Hf : In r (filter (fun r' => String.eqb (surname (Name r')) (fst e)) df)).
  { apply filter_In. split; [exact Hr|]. rewrite Hs. apply String.eqb_refl. }
  destruct (filter _ df); [destruct Hf|simpl length; lia].
Qed.

Lemma last_names_In df r :
  In r df -> In (surname (Name r), bearers df (surname (Name r))) (last_names df).
Proof.
  intros Hr. unfold last_names, bearers.
  rewrite <- (size_map_Some (fun r' => surname (Name r')) (surname (Name r)) df).
  rewrite <- last_names_series_surname. apply value_counts_In.
  rewrite last_names_series_surname.
  exact (in_map (fun r' => Some (surname (Name r'))) df r Hr).
Qed.

Lemma bearers_zero df s :
  (forall r, In r df -> surname (Name r) <> s) -> bearers df s = 0.
Proof.
  intros H. unfold bearers.
  replace (filter _ df) with (@nil PassengerRecord); [reflexivity|].
  symmetry. induction df as [|r df IH]; [reflexivity|]. simpl.
  destruct (String.eqb_spec (surname (Name r)) s) as [E|_].
  - exfalso. apply (H r); [now left|exact E].
  - apply IH. intros r' Hr'. apply H. now right.
Qed.

Lemma fold_max_head (l : list Z) (n : Z) :
  Forall (fun x => x <= n) l -> fold_left Z.max l n = n.
Proof.
  induction 1 as [|x l Hx Hl IH]; [reflexivity|].
  cbn [fold_left]. now rewrite Z.max_l.
Qed.

(** X6.  The largest family group that app.py reports: for a table with at
    least one row, [idxmax] and [max] are the first entry of the counts,
    its count is the number of records with that surname, and no surname
    has more records. *)
Theorem largest_family_group :
  forall df : list PassengerRecord,
    df <> [] ->
    exists s n rest,
      last_names df = (s, n) :: rest /\
      idxmax (last_names df) = Some s /\
      series_max (last_names df) = Some n /\
      n = bearers df s /\ 1 <= n /\
      forall s', bearers df s' <= n.
Proof.
  intros df Hne.
  destruct df as [|r0 df0]; [congruence|]. set (df := r0 :: df0) in *.
  pose proof (last_names_In df r0 (or_introl eq_refl)) as H0.
  pose proof (value_counts_sorted (last_names_series df)) as Hs.
  fold (last_names df) in Hs.
  destruct (last_names df) as [|[s n] rest] eqn:El; [destruct H0|].
  assert (Hall : Forall (fun e : string * Z => snd e <= n) rest).
  { inversion Hs; subst. assumption. }
  assert (Hhead : In (s, n) (last_names df)) by (rewrite El; now left).
  destruct (last_names_entry df _ Hhead) as [Hn [H1 _]]. simpl in Hn, H1.
  assert (Hmax : series_max ((s, n) :: rest) = Some n).
  { unfold series_max. cbn [snd]. f_equal. apply fold_max_head.
    apply Forall_map. exact Hall. }
  exists s, n, rest. split; [reflexivity|]. split; [|split; [exact Hmax|]].
  - unfold idxmax. rewrite Hmax. cbn [find snd]. now rewrite Z.eqb_refl.
  - split; [exact Hn|]. split; [exact H1|]. intros s'.
    destruct (in_dec string_dec s' (map (fun r => surname (Name r)) df))
      as [Hin|Hnin].
    + apply in_map_iff in Hin. destruct Hin as [r [<- Hr]].
      pose proof (last_names_In df r Hr) as He. rewrite El in He.
      destruct He as [[= _ <-]|He]; [lia|].
      rewrite Forall_forall in Hall. apply (Hall _ He).
    + rewrite bearers_zero; [lia|].
      intros r Hr E. apply Hnin. apply in_map_iff. now exists r.
Qed.

Lemma largest_family_group_witness :
  exists s n rest,
    last_names sample = (s, n) :: rest /\
    idxmax (last_names sample) = Some s /\
    series_max (last_names sample) = Some n /\
    n = bearers sample s /\ 1 <= n /\
    forall s', bearers sample s' <= n.
Proof.
  apply (largest_family_group sample). discriminate.
Defined.

Lemma multiple_prefix (l : list (string * Z)) :
  StronglySorted count_descending l ->
  Forall (fun e => 1 <= snd e) l ->
  exists rest,
    l = families_with_multiple_members l ++ rest /\
    Forall (fun e => snd e = 1) rest.
Proof.
  unfold families_with_multiple_members.
  induction 1 as [|e l Hs IH He]; intros Hpos.
  - exists []. split; [reflexivity|constructor].
  - inversion Hpos as [|? ? H1 Hl]; subst. cbn [filter].
    destruct (Z.ltb_spec 1 (snd e)) as [Hgt|Hle].
    + destruct (IH Hl) as [rest [E Hrest]]. exists rest.
      split; [|exact Hrest]. cbn [app]. now rewrite <- E.
    + assert (Hones : Forall (fun x : string * Z => snd x = 1) l).
      { rewrite Forall_forall in *. intros x Hx.
        specialize (He x Hx). specialize (Hl x Hx).
        unfold count_descending in He. lia. }
      exists (e :: l). split.
      * replace (filter (fun x : string * Z => 1 <? snd x) l)
          with (@nil (string * Z)); [reflexivity|].
        symmetry. clear -Hones. induction Hones as [|x l Hx _ IH];
          [reflexivity|]. cbn [filter]. rewrite Hx. exact IH.
      * constructor; [lia|exact Hones].
Qed.

(** X7.  The families with multiple members that app.py counts are the
    surnames borne by two records or more, and they are the leading entries
    of the counts: every entry after them has count 1. *)
Theorem families_with_multiple_members_leading :
  forall df : list PassengerRecord,
    let name_counts := last_names df in
    (forall s n, In (s, n) (families_with_multiple_members name_counts) <->
                 n = bearers df s /\ 2 <= n) /\
    exists rest,
      name_counts = families_with_multiple_members name_counts ++ rest /\
      Forall (fun e => snd e = 1) rest.
Proof.
  intros df name_counts. split.
  - intros s n. unfold families_with_multiple_members.
    rewrite filter_In. cbn [snd]. rewrite Z.ltb_lt. split.
    + intros [He Hn]. destruct (last_names_entry df _ He) as [E _].
      simpl in E. split; [exact E|lia].
    + intros [-> Hn]. split; [|lia].
      destruct (in_dec string_dec s (map (fun r => surname (Name r)) df))
        as [Hin|Hnin].
      * apply in_map_iff in Hin. destruct Hin as [r [<- Hr]].
        now apply last_names_In.
      * rewrite bearers_zero in Hn; [lia|].
        intros r Hr E. apply Hnin. apply in_map_iff. now exists r.
  - apply multiple_prefix.
    + apply value_counts_sorted.
    + apply Forall_forall. intros e He.
      now destruct (last_names_entry df _ He) as [_ [H1 _]].
Qed.

(** ** Further properties of the surname extraction *)

Lemma has_comma_app a b :
  has_comma (a ++ b) = has_comma a || has_comma b.
Proof.
  induction a as [|c a IH]; simpl; [reflexivity|].
  now rewrite IH, orb_assoc.
Qed.

Lemma all_space_no_comma s : all_space s = true -> has_comma s = false.
Proof.
  induction s as [|c s IH]; simpl; [reflexivity|].
  intros H. apply andb_true_iff in H. destruct H as [Hc Hs].
  rewrite (IH Hs), orb_false_r.
  destruct (Ascii.eqb_spec c ","); [subst; discriminate Hc|reflexivity].
Qed.

Lemma before_comma_app pre rest :
  has_comma pre = false -> before_comma (pre ++ String "," rest) = pre.
Proof.
  induction pre as [|c pre IH]; simpl; [reflexivity|].
  destruct (Ascii.eqb c ","); simpl; [discriminate|].
  intros H. now rewrite IH.
Qed.

Lemma lstrip_all_space s : all_space s = true -> lstrip s = EmptyString.
Proof.
  induction s as [|c s IH]; simpl; [reflexivity|].
  intros H. apply andb_true_iff in H. destruct H as [Hc Hs].
  rewrite Hc. now apply IH.
Qed.

Lemma rstrip_all_space s : all_space s = true -> rstrip s = EmptyString.
Proof.
  induction s as [|c s IH]; simpl; [reflexivity|].
  intros H. apply andb_true_iff in H. destruct H as [Hc Hs].
  now rewrite (IH Hs), Hc.
Qed.

Lemma lstrip_app l u : all_space l = true -> lstrip (l ++ u) = lstrip u.
Proof.
  induction l as [|c l IH]; simpl; [reflexivity|].
  intros H. apply andb_true_iff in H. destruct H as [Hc Hs].
  rewrite Hc. now apply IH.
Qed.

Lemma rstrip_app u t : all_space t = true -> rstrip (u ++ t) = rstrip u.
Proof.
  intros Ht. induction u as [|c u IH]; simpl.
  - now apply rstrip_all_space.
  - now rewrite IH.
Qed.

Lemma lstrip_fixed s : space_at (first_char s) = false -> lstrip s = s.
Proof. destruct s as [|c s]; simpl; [reflexivity|]. now intros ->. Qed.

Lemma rstrip_fixed s : space_at (last_char s) = false -> rstrip s = s.
Proof.
  induction s as [|c s IH]; [reflexivity|].
  cbn [last_char rstrip]. destruct s as [|d s].
  - simpl. now intros ->.
  - intros H. rewrite (IH H). reflexivity.
Qed.

Lemma strip_fixed s :
  space_at (first_char s) = false -> space_at (last_char s) = false ->
  strip s = s.
Proof.
  intros Hf Hl. unfold strip. rewrite (lstrip_fixed s Hf).
  now apply rstrip_fixed.
Qed.

Lemma strip_padded l s t :
  all_space l = true -> all_space t = true ->
  space_at (first_char s) = false -> space_at (last_char s) = false ->
  strip (l ++ s ++ t) = s.
Proof.
  intros Hl Ht Hf Hlast. unfold strip. rewrite (lstrip_app l _ Hl).
  destruct s as [|c s].
  - simpl. now rewrite (lstrip_all_space t Ht).
  - rewrite (lstrip_fixed (String c s ++ t)); [|exact Hf].
    rewrite (rstrip_app _ t Ht). now apply rstrip_fixed.
Qed.

(** X8.  A name written "Last, Title. First", with any whitespace around the
    last name, is counted under exactly that last name. *)
Theorem surname_of_formatted_name :
  forall l last t rest : string,
    all_space l = true -> all_space t = true ->
    has_comma last = false ->
    space_at (first_char last) = false ->
    space_at (last_char last) = false ->
    option_map strip
      (str_get 0 (str_split "," (l ++ last ++ t ++ String "," rest)))
    = Some last.
Proof.
  intros l last t rest Hl Ht Hc Hf Hlast.
  rewrite str_split_first. cbn [option_map]. f_equal.
  replace (l ++ last ++ t ++ String "," rest)%string
    with ((l ++ last ++ t) ++ String "," rest)%string.
  - rewrite before_comma_app.
    + now apply strip_padded.
    + rewrite !has_comma_app, Hc, (all_space_no_comma l Hl),
        (all_space_no_comma t Ht). reflexivity.
  - clear. induction l as [|c l IH]; simpl.
    + induction last as [|c last IH]; simpl; [reflexivity|]. now rewrite IH.
    + now rewrite IH.
Qed.

Lemma surname_of_formatted_name_witness :
  option_map strip
    (str_get 0 (str_split "," (" " ++ "Braund" ++ "  "
                                 ++ String "," " Mr. Owen Harris")))
  = Some "Braund"%string.
Proof.
  apply (surname_of_formatted_name " " "Braund" "  " " Mr. Owen Harris");
    reflexivity.
Defined.

(** X9.  A surname that comes out of the extraction has no comma and no
    whitespace at either end, and extracting from it gives it back. *)
Theorem surname_is_fixed_point :
  forall name : string,
    exists s,
      option_map strip (str_get 0 (str_split "," name)) = Some s /\
      has_comma s = false /\
      space_at (first_char s) = false /\ space_at (last_char s) = false /\
      option_map strip (str_get 0 (str_split "," s)) = Some s.
Proof.
  intros name. exists (surname name). rewrite !str_split_first.
  cbn [option_map]. fold (surname name).
  destruct (before_comma_spec name) as [rest [_ [Hno _]]].
  destruct (strip_spec (before_comma name)) as [l [t [E [_ [_ [Hf Hl]]]]]].
  fold (surname name) in E, Hf, Hl.
  assert (Hc : has_comma (surname name) = false).
  { rewrite E, !has_comma_app in Hno.
    apply orb_false_iff in Hno. destruct Hno as [_ Hno].
    apply orb_false_iff in Hno. tauto. }
  split; [reflexivity|]. split; [exact Hc|].
  split; [exact Hf|]. split; [exact Hl|].
  f_equal. rewrite (before_comma_no_comma _ Hc). now apply strip_fixed.
Qed.

(** ** Further properties of determine_age_division *)






(** X11.  The class medians read back from the returned frame, as app.py
    computes them, are the medians the flags were decided with: one entry
    per class of the input, in ascending order of class. *)
Theorem medians_read_back :
  forall rows : list PassengerRecord,
    exists out pclass age,
      determine_age_division rows = Some out /\
      getitem out "Pclass" = Some pclass /\
      getitem out "Age" = Some age /\
      groupby_median pclass age
      = map (fun c => (c, class_median rows c)) (all_classes rows) /\
      groupby_median pclass age
      = groupby_median (map (fun r => Int (Pclass r)) rows)
                       (map (fun r => float_cell (Age r)) rows) /\
      NoDup (all_classes rows) /\
      Sorted (fun a b => a <= b) (all_classes rows) /\
      forall r, In r rows -> In (Pclass r) (all_classes rows).
Proof.
  intros rows. eexists _, _, _.
  split; [apply determine_age_division_returns|].
  split; [reflexivity|]. split; [reflexivity|].
  split; [apply groupby_median_classes|]. split; [reflexivity|].
  split; [apply all_classes_NoDup|]. split.
  - unfold all_classes.
    eapply Sorted_ind with (P := fun l => Sorted (fun a b => a <= b) l);
      [constructor| |apply (sorted_Sorted Z.leb)].
    + intros a l _ IH Hhd. constructor; [exact IH|].
      destruct Hhd; constructor. now apply Z.leb_le.
    + intros x y. rewrite !Z.leb_le. lia.
  - intros r Hr. apply all_classes_In. now apply in_map.
Qed.

(** ** Properties of the table behind the age-division chart *)

Lemma division_eqb_spec k k' : reflect (k = k') (division_eqb k k').
Proof.
  destruct k as [c b], k' as [c' b']. unfold division_eqb; simpl.
  destruct (Z.eqb_spec c c') as [->|N]; simpl; [|constructor; congruence].
  destruct (Bool.eqb_spec b b') as [->|N]; constructor; congruence.
Qed.

Lemma combine_map {R A B : Type} (f : R -> A) (g : R -> B) l :
  combine (map f l) (map g l) = map (fun r => (f r, g r)) l.
Proof. induction l; simpl; congruence. Qed.

Lemma filter_map_swap' {A B : Type} (F : A -> B) (p : B -> bool) l :
  filter p (map F l) = map F (filter (fun x => p (F x)) l).
Proof.
  induction l as [|x l IH]; [reflexivity|]. simpl.
  destruct (p (F x)); simpl; now rewrite IH.
Qed.

Lemma division_group rows k :
  get_group division_key division_eqb k (map (division_cells rows) rows)
  = map (division_cells rows) (division_members rows k).
Proof.
  unfold division_members, get_group. rewrite filter_map_swap'.
  f_equal.
Qed.

Lemma visualize_age_division_data_returns rows :
  visualize_age_division_data rows
  = Some (map (division_stats rows) (division_index rows)).
Proof.
  unfold visualize_age_division_data.
  rewrite determine_age_division_returns. cbn [bind].
  unfold age_survival.
  set (flags := map Bool (map (older rows) rows)).
  change (getitem (read_csv rows ++ [("older_passenger"%string, flags)]) "Pclass")
    with (Some (map (fun r => Int (Pclass r)) rows)).
  change (getitem (read_csv rows ++ [("older_passenger"%string, flags)])
                  "older_passenger")
    with (Some flags).
  change (getitem (read_csv rows ++ [("older_passenger"%string, flags)])
                  "PassengerId")
    with (Some (map (fun r => Int (PassengerId r)) rows)).
  change (getitem (read_csv rows ++ [("older_passenger"%string, flags)])
                  "Survived")
    with (Some (map (fun r => Int (Z.b2z (Survived r))) rows)).
  cbn [bind]. unfold flags. rewrite map_map, !combine_map.
  change (map (fun r => (Int (Pclass r), Bool (older rows r),
                         (Int (PassengerId r), Int (Z.b2z (Survived r))))) rows)
    with (map (division_cells rows) rows).
  assert (Ekeys : dropna (map division_key (map (division_cells rows) rows))
                  = map (fun r => (Pclass r, older rows r)) rows).
  { unfold division_cells, dropna. generalize (older rows). intros f.
    induction rows as [|r rows' IH]; simpl; congruence. }
  rewrite Ekeys. fold (division_index rows).
  f_equal. apply map_ext. intros k. cbv zeta.
  rewrite division_group. unfold division_stats.
  generalize (division_members rows k). intros l. f_equal.
  - f_equal. induction l; simpl; congruence.
  - f_equal. unfold dropna. induction l; simpl; congruence.
  - f_equal. f_equal. unfold dropna. induction l; simpl; congruence.
  - now destruct k as [c []].
Qed.

Lemma division_index_NoDup rows : NoDup (division_index rows).
Proof. apply sorted_NoDup, unique_NoDup, division_eqb_spec. Qed.

Lemma division_index_In rows k :
  In k (division_index rows) <->
  exists r, In r rows /\ Pclass r = fst k /\ older rows r = snd k.
Proof.
  unfold division_index.
  rewrite sorted_In, (unique_In division_eqb division_eqb_spec), in_map_iff.
  destruct k as [c b]; simpl.
  split; intros [r H]; exists r.
  - destruct H as [[= <- <-] Hr]. auto.
  - destruct H as [Hr [<- <-]]. auto.
Qed.

Lemma division_members_filter rows k :
  division_members rows k
  = filter (fun r => (Pclass r =? fst k) && Bool.eqb (older rows r) (snd k))
           rows.
Proof. reflexivity. Qed.

Lemma division_members_nonempty rows k :
  In k (division_index rows) -> division_members rows k <> [].
Proof.
  intros Hk. apply division_index_In in Hk. destruct Hk as [r [Hr [Hc Hb]]].
  assert (Hin : In r (division_members rows k)).
  { rewrite division_members_filter. apply filter_In. split; [exact Hr|].
    rewrite Hc, Hb, Z.eqb_refl. now destruct (snd k). }
  intros E. rewrite E in Hin. destruct Hin.
Qed.

(** X12.  The table behind the age-division chart: every record is counted in
    exactly one bar, no bar is empty, and each bar's rate is the share of its
    survivors, divided and rounded to 3 places in double precision, labelled
    by the side of the median. *)
Theorem age_division_chart_data :
  forall rows : list PassengerRecord,
    exists table,
      visualize_age_division_data rows = Some table /\
      sum (map AgeDivision.n_passengers table) = Z.of_nat (length rows) /\
      NoDup (map AgeDivision.index table) /\
      Forall (fun w =>
                let n := AgeDivision.n_passengers w in
                let s := AgeDivision.n_survivors w in
                n = Z.of_nat (length (filter
                      (fun r => (Pclass r =? AgeDivision.Pclass w)
                                && Bool.eqb (older rows r)
                                            (AgeDivision.older_passenger w))
                      rows)) /\
                1 <= n /\ 0 <= s <= n /\
                (exists rate k,
                    AgeDivision.survival_rate w = Some rate /\
                    rate = round 3 (fdiv (inject_Z s) (inject_Z n)) /\
                    0 <= k <= 1000 /\ rate = fl (inject_Z k / 1000) /\
                    (n <= 10 ^ 11 ->
                     (Qabs (inject_Z k / 1000 - inject_Z s / inject_Z n)
                      <= 1 # 2000)%Q)) /\
                AgeDivision.age_division w
                = Some (if AgeDivision.older_passenger w
                        then "Above Median Age"
                        else "Below/At Median Age")%string)
             table.
Proof.
  intros rows. eexists.
  split; [apply visualize_age_division_data_returns|].
  split; [|split].
  - rewrite map_map.
    change (fun k => AgeDivision.n_passengers (division_stats rows k))
      with (fun k => size (record_division rows) division_eqb k rows).
    rewrite (sum_size (record_division rows) division_eqb division_eqb_spec).
    + f_equal. f_equal.
      rewrite (filter_ext (has_key (record_division rows)) (fun _ => true))
        by reflexivity.
      generalize rows. intros l. induction l; simpl; congruence.
    + apply division_index_NoDup.
    + intros r k Hr [= <-]. apply division_index_In. exists r. auto.
  - rewrite map_map.
    erewrite map_ext; [rewrite map_id; apply division_index_NoDup|].
    intros [c b]. reflexivity.
  - apply Forall_forall. intros w Hw.
    apply in_map_iff in Hw. destruct Hw as [k [<- Hk]].
    pose proof (division_members_nonempty rows k Hk) as Hne.
    unfold division_stats.
    cbn [AgeDivision.n_passengers AgeDivision.n_survivors
         AgeDivision.survival_rate AgeDivision.age_division
         AgeDivision.Pclass AgeDivision.older_passenger].
    cbv zeta. rewrite <- division_members_filter.
    set (members := division_members rows k) in *.
    pose proof (sum_b2z_bounds Survived members) as Hb.
    assert (Hn : 1 <= Z.of_nat (length members))
      by (destruct members; [congruence|simpl length; lia]).
    split; [reflexivity|]. split; [exact Hn|].
    split; [exact Hb|split; [|reflexivity]].
    destruct (round3_rate _ _ Hb ltac:(lia)) as (m & Hm & Em & Hnear & _).
    eexists. exists m. split; [|split; [reflexivity|]].
    + unfold mean. destruct members as [|r members']; [congruence|].
      cbn [map option_map length]. now rewrite length_map.
    + split; [exact Hm|]. split; [exact Em|exact Hnear].
Qed.




(** ** The assertions of the tests *)

Lemma unique_length {A : Type} (eqb : A -> A -> bool) (l : list A) :
  (length (unique eqb l) <= length l)%nat /\
  (l <> [] -> 1 <= length (unique eqb l))%nat.
Proof.
  split.
  - induction l as [|x l IH]; simpl; [lia|].
    pose proof (filter_length_le (fun y => negb (eqb x y)) (unique eqb l)).
    lia.
  - destruct l; [congruence|]. simpl. lia.
Qed.

(** X14.  For a table with at least one row, [family_groups] and [last_names]
    return at least one row, as the tests assert, and no more rows than the
    table has. *)
Theorem results_not_empty :
  forall df : list PassengerRecord,
    df <> [] ->
    (1 <= length (family_groups df) <= length df)%nat /\
    (1 <= length (last_names df) <= length df)%nat.
Proof.
  intros df Hne. split.
  - rewrite <- (Permutation_length (family_groups_perm df)), length_map.
    unfold family_index. rewrite <- (Permutation_length (sorted_perm _ _)).
    destruct (unique_length pair_eqb
                (map (fun r => (family_size r, Pclass r)) df)) as [Hle Hpos].
    rewrite length_map in Hle. split; [|exact Hle].
    apply Hpos. destruct df; [congruence|discriminate].
  - unfold last_names.
    rewrite <- (Permutation_length (value_counts_perm _)), length_map.
    rewrite last_names_series_surname.
    assert (E : dropna (map (fun r => Some (surname (Name r))) df)
                = map (fun r => surname (Name r)) df).
    { clear. unfold dropna. induction df; simpl; congruence. }
    rewrite E.
    destruct (unique_length String.eqb
                (map (fun r => surname (Name r)) df)) as [Hle Hpos].
    rewrite length_map in Hle. split; [|exact Hle].
    apply Hpos. destruct df; [congruence|discriminate].
Qed.

Lemma results_not_empty_witness :
  (1 <= length (family_groups sample) <= length sample)%nat /\
  (1 <= length (last_names sample) <= length sample)%nat.
Proof. apply (results_not_empty sample). discriminate. Defined.
